(** * jobPortal_API: the in-memory dataset cache of [root.py]

    A shallow embedding of the cache loader and the query handlers of
    [root.py], and the properties of the specification proved (or
    refuted) over it.

    - Python [str] values are sequences of Unicode code points.
    - A row produced by [csv.DictReader] and a served record are Python
      dictionaries: insertion-ordered association lists with unique keys.
    - The two indexes [company_cache] and [recruit_cache] are finite maps.
    - The module-level globals form an explicit [cache] state; handlers
      are state transformers that may raise.
    - A record is shared by the ordered list and the index it is stored
      in; nothing mutates a record once it is stored, so the sharing is
      not observable and records are plain values. *)

From Stdlib Require Import ZArith QArith Qround Qabs String Ascii List.
From Stdlib Require Import DecimalString DecimalN DecimalPos.
From stdpp Require Import gmap strings list fin_maps.

Local Open Scope N_scope.

(** ** Python strings *)

(** A [str] is a list of code points. *)
Definition pystr : Type := list N.

(** An ASCII literal of the source, as a [str]. *)
Definition py (s : string) : pystr := N_of_ascii <$> list_ascii_of_string s.

(** [str.isspace] on one code point: the characters CPython's
    [_PyUnicode_IsWhitespace] accepts. *)
Definition isspace (c : N) : bool :=
  ((9 <=? c) && (c <=? 13)) || ((28 <=? c) && (c <=? 32))
  || (c =? 133) || (c =? 160) || (c =? 5760)
  || ((8192 <=? c) && (c <=? 8202))
  || (c =? 8232) || (c =? 8233) || (c =? 8239) || (c =? 8287)
  || (c =? 12288).

(** [str.lstrip()], [str.rstrip()] and [str.strip()] with no argument. *)
Fixpoint lstrip (s : pystr) : pystr :=
  match s with
  | [] => []
  | c :: s' => if isspace c then lstrip s' else s
  end.

Definition rstrip (s : pystr) : pystr := reverse (lstrip (reverse s)).

Definition strip (s : pystr) : pystr := rstrip (lstrip s).

(** ** Python dictionaries keyed by [str] *)

Section PyDict.
Context {V : Type}.

(** The items of a [dict], in insertion order. *)
Definition dict : Type := list (pystr * V).

(** [d[k]] when [k in d]. *)
Fixpoint dict_get (k : pystr) (d : dict) : option V :=
  match d with
  | [] => None
  | (k', v') :: d' => if decide (k = k') then Some v' else dict_get k d'
  end.

(** [d[k] = v]: an existing key keeps its position, a new key goes last. *)
Fixpoint dict_set (k : pystr) (v : V) (d : dict) : dict :=
  match d with
  | [] => [(k, v)]
  | (k', v') :: d' =>
      if decide (k = k') then (k, v) :: d' else (k', v') :: dict_set k v d'
  end.

(** [d.pop(k, None)], the returned value dropped. *)
Fixpoint dict_pop (k : pystr) (d : dict) : dict :=
  match d with
  | [] => []
  | (k', v') :: d' =>
      if decide (k = k') then d' else (k', v') :: dict_pop k d'
  end.

Definition keys (d : dict) : list pystr := fst <$> d.
End PyDict.
Arguments dict : clear implicits.

(** A served record: field name to optional text. *)
Definition record : Type := dict (option pystr).

(** [d.get(k)] on a record: [None] for a missing key and for a null field. *)
Definition get (k : pystr) (d : record) : option pystr :=
  match dict_get k d with
  | Some v => v
  | None => None
  end.

(** ** Rows of [csv.DictReader] *)

(** One item of a row: a named column holding text or [None] (the
    [restval] of a short line), or the [None] key ([restkey]) holding the
    surplus cells of a long line. *)
Inductive cell : Type :=
  | Field (k : pystr) (v : option pystr)
  | Rest (extra : list pystr).

Definition csv_row : Type := list cell.

(** The value stored for a cell value [v] by [_normalize_row]. *)
Definition normalize_value (v : option pystr) : option pystr :=
  match v with
  | None => None
  | Some v =>
      let vv := strip v in
      if decide (vv = []) then None else Some vv
  end.

(** The loop body of [_normalize_row]. *)
Definition normalize_step (out : record) (c : cell) : record :=
  match c with
  | Rest _ => out
  | Field k v => dict_set (strip k) (normalize_value v) out
  end.

Definition _normalize_row (row : csv_row) : record :=
  fold_left normalize_step row [].

(** [d.items()] of a record, as a row. *)
Definition items (d : record) : csv_row := (λ kv, Field kv.1 kv.2) <$> d.

(** ** The environment: the two source files and the clock *)

(** Exceptions of the program. [ReaderError] stands for what iterating a
    [csv.DictReader] can raise ([csv.Error], [UnicodeDecodeError]). *)
Inductive exn : Type :=
  | FileNotFoundError (msg : pystr)
  | ReaderError (msg : pystr)
  | HTTPException (status_code : Z) (detail : pystr).

Inductive outcome (A : Type) : Type :=
  | Return (a : A)
  | Raise (e : exn).
Arguments Return {A} a.
Arguments Raise {A} e.

(** A source file as one call of [load_cache_from_csv] sees it: its
    modification time (a float, taken as the rational it denotes), the
    rows the reader yields, and the error the reader raises after them,
    if any. *)
Record csv_file : Type := {
  st_mtime : Q;
  rows : list csv_row;
  fault : option pystr
}.

Inductive path : Type := COMPANY_CSV | RECRUIT_CSV.

Record world : Type := {
  BASE_DIR : pystr;
  company_csv : option csv_file;
  recruit_csv : option csv_file;
  time : Q
}.

(** The file at a path, [None] when [p.exists()] is false. *)
Definition file_at (w : world) (p : path) : option csv_file :=
  match p with
  | COMPANY_CSV => company_csv w
  | RECRUIT_CSV => recruit_csv w
  end.

(** [str(p)]: [BASE_DIR / "source" / name]. *)
Definition path_str (w : world) (p : path) : pystr :=
  BASE_DIR w ++
  match p with
  | COMPANY_CSV => py "/source/company.csv"
  | RECRUIT_CSV => py "/source/recruit.csv"
  end.

(** Decimal digits of a natural number. *)
Definition decimal (n : N) : pystr := py (NilZero.string_of_uint (N.to_uint n)).

(** Rounding of a non-negative number to the nearest integer, ties to
    even. *)
Definition round_half_even (x : Q) : Z :=
  let n := Qfloor x in
  match (x - inject_Z n ?= 1 # 2)%Q with
  | Lt => n
  | Gt => (n + 1)%Z
  | Eq => if Z.even n then n else (n + 1)%Z
  end.

(** [f"{x:.0f}"] *)
Definition format_0f (x : Q) : pystr :=
  (match (x ?= 0)%Q with Lt => py "-" | _ => [] end)
  ++ decimal (Z.to_N (round_half_even (Qabs x))).

Definition mtime_or_0 (w : world) (p : path) : Q :=
  match file_at w p with
  | Some f => st_mtime f
  | None => 0%Q
  end.

Definition _file_version (w : world) : pystr :=
  let c_m := mtime_or_0 w COMPANY_CSV in
  let r_m := mtime_or_0 w RECRUIT_CSV in
  format_0f c_m ++ py "-" ++ format_0f r_m.

(** ** The module-level state *)

Record cache : Type := {
  company_cache : gmap pystr record;
  recruit_cache : gmap pystr record;
  all_companies : list record;
  all_recruits : list record;
  _cache_loaded : bool;
  _cache_loaded_at : Q;
  _cache_version : pystr
}.

(** The globals as the module body leaves them. *)
Definition initial_cache : cache := {|
  company_cache := ∅;
  recruit_cache := ∅;
  all_companies := [];
  all_recruits := [];
  _cache_loaded := false;
  _cache_loaded_at := 0%Q;
  _cache_version := []
|}.

(** A computation over the globals that returns or raises; the globals
    survive a raise. *)
Definition M (A : Type) : Type := cache → outcome A * cache.

Definition ret {A} (a : A) : M A := λ st, (Return a, st).

Definition raise {A} (e : exn) : M A := λ st, (Raise e, st).

Definition bind {A B} (m : M A) (k : A → M B) : M B :=
  λ st,
    match m st with
    | (Return a, st') => k a st'
    | (Raise e, st') => (Raise e, st')
    end.

(** Read the globals. *)
Definition globals : M cache := λ st, (Return st, st).

(** Assign the globals. *)
Definition assign (st : cache) : M () := λ _, (Return (), st).

(** [try: m except Exception as e: handler e] *)
Definition try_except {A} (m : M A) (handler : exn → M A) : M A :=
  λ st,
    match m st with
    | (Return a, st') => (Return a, st')
    | (Raise e, st') => handler e st'
    end.

Notation "'let!' x ':=' m 'in' k" := (bind m (λ x, k))
  (at level 10, x name, m at level 100, k at level 200).
Notation "m ;;; k" := (bind m (λ _, k))
  (at level 100, k at level 200, right associativity).

(** ** [load_cache_from_csv] *)

(** The local index and ordered list one loop fills. *)
Definition table : Type := gmap pystr record * list record.

(** Body of the loop over the company reader. *)
Definition company_step (acc : table) (row : csv_row) : table :=
  let '(_company_cache, _all_companies) := acc in
  let d := _normalize_row row in
  let d := dict_pop (py "quality") d in
  let d := dict_pop (py "updated_at") d in
  let _all_companies := _all_companies ++ [d] in
  match get (py "corporate_number") d with
  | Some (c :: corp) => (<[c :: corp := d]> _company_cache, _all_companies)
  | _ => (_company_cache, _all_companies)
  end.

(** Body of the loop over the recruit reader. *)
Definition recruit_step (acc : table) (row : csv_row) : table :=
  let '(_recruit_cache, _all_recruits) := acc in
  let d := _normalize_row row in
  match get (py "media_internal_id") d with
  | Some (c :: media_id) =>
      (<[c :: media_id := d]> _recruit_cache, _all_recruits ++ [d])
  | _ => (_recruit_cache, _all_recruits)
  end.

(** [for row in csv.DictReader(f): body]: the rows in file order, then
    the reader's error if it has one. *)
Definition for_rows (f : csv_file) (body : table → csv_row → table) : M table :=
  let acc := fold_left body (rows f) (∅, []) in
  match fault f with
  | Some msg => raise (ReaderError msg)
  | None => ret acc
  end.

Definition load_cache_from_csv (force : bool) (w : world) : M () :=
  match file_at w COMPANY_CSV, file_at w RECRUIT_CSV with
  | None, _ =>
      raise (FileNotFoundError (py "Missing " ++ path_str w COMPANY_CSV))
  | Some _, None =>
      raise (FileNotFoundError (py "Missing " ++ path_str w RECRUIT_CSV))
  | Some company_f, Some recruit_f =>
      let version := _file_version w in
      let! g := globals in
      if _cache_loaded g && negb force
         && bool_decide (version = _cache_version g)
      then ret ()
      else
        let! companies := for_rows company_f company_step in
        let! recruits := for_rows recruit_f recruit_step in
        assign {| company_cache := companies.1;
                  recruit_cache := recruits.1;
                  all_companies := companies.2;
                  all_recruits := recruits.2;
                  _cache_loaded := true;
                  _cache_loaded_at := time w;
                  _cache_version := version |}
  end.

Definition ensure_cache_loaded (w : world) : M () :=
  let! g := globals in
  if negb (_cache_loaded g) then load_cache_from_csv false w else ret ().

(** ** The request handlers *)

Definition detail_company_404 : pystr :=
  [67; 244; 110; 103; 32; 116; 121; 32; 107; 104; 244; 110; 103; 32; 116;
   7891; 110; 32; 116; 7841; 105].

Definition detail_recruitment_404 : pystr :=
  [75; 104; 244; 110; 103; 32; 116; 236; 109; 32; 116; 104; 7845; 121; 32;
   116; 104; 244; 110; 103; 32; 116; 105; 110; 32; 116; 117; 121; 7875;
   110; 32; 100; 7909; 110; 103].

(** [GET /company/{corporate_number}] *)
Definition get_company (corporate_number : pystr) (w : world) : M record :=
  ensure_cache_loaded w ;;;
  let! g := globals in
  match company_cache g !! corporate_number with
  | None => raise (HTTPException 404 detail_company_404)
  | Some company => ret company
  end.

Record recruitment_response : Type := {
  recruitment : record;
  company : option record
}.

(** [GET /recruitment/{media_internal_id}] *)
Definition get_recruitment (media_internal_id : pystr) (w : world)
  : M recruitment_response :=
  ensure_cache_loaded w ;;;
  let! g := globals in
  match recruit_cache g !! media_internal_id with
  | None => raise (HTTPException 404 detail_recruitment_404)
  | Some recruitment =>
      let comp :=
        match get (py "corporate_number") recruitment with
        | Some (c :: corp) => company_cache g !! (c :: corp)
        | _ => None
        end in
      ret {| recruitment := recruitment; company := comp |}
  end.

(** [GET /recruitment] *)
Definition get_all_recruitments (w : world) : M (list record) :=
  ensure_cache_loaded w ;;;
  let! g := globals in
  ret (all_recruits g).

(** [GET /] *)
Definition root (w : world) : M (list record) :=
  ensure_cache_loaded w ;;;
  let! g := globals in
  ret (all_companies g).

Record check_data_response : Type := {
  company_count : nat;
  recruit_count : nat;
  cache_loaded : bool;
  cache_version : pystr;
  cache_loaded_at : Q;
  source : pystr
}.

(** [GET /debug/check-data] *)
Definition check_data (w : world) : M check_data_response :=
  ensure_cache_loaded w ;;;
  let! g := globals in
  ret {| company_count := size (company_cache g);
         recruit_count := size (recruit_cache g);
         cache_loaded := _cache_loaded g;
         cache_version := _cache_version g;
         cache_loaded_at := _cache_loaded_at g;
         source := py "csv" |}.

(** [str(e)]; for [HTTPException] the framework's
    [f"{status_code}: {detail}"]. *)
Definition str_exn (e : exn) : pystr :=
  match e with
  | FileNotFoundError msg => msg
  | ReaderError msg => msg
  | HTTPException status_code detail =>
      (match status_code with Z.neg _ => py "-" | _ => [] end)
      ++ decimal (Z.abs_N status_code) ++ py ": " ++ detail
  end.

Record health_response : Type := {
  health_status : pystr;
  health_source : pystr;
  companies : nat;
  recruitments : nat;
  cache_status : pystr
}.

(** [GET /health] *)
Definition health_check (w : world) : M health_response :=
  try_except
    (ensure_cache_loaded w ;;;
     let! g := globals in
     ret {| health_status := py "healthy";
            health_source := py "csv";
            companies := size (company_cache g);
            recruitments := size (recruit_cache g);
            cache_status := py "active" |})
    (λ e, raise (HTTPException 500 (str_exn e))).

Record reload_response : Type := {
  reload_status : pystr;
  companies_loaded : nat;
  recruitments_loaded : nat;
  reload_cache_version : pystr
}.

(** [POST /admin/reload-cache] *)
Definition reload_cache (w : world) : M reload_response :=
  try_except
    (load_cache_from_csv true w ;;;
     let! g := globals in
     ret {| reload_status := py "success";
            companies_loaded := size (company_cache g);
            recruitments_loaded := size (recruit_cache g);
            reload_cache_version := _cache_version g |})
    (λ e, raise (HTTPException 500 (str_exn e))).

(** ** Vocabulary of the statements *)

(** The key an index uses for a record: the value of [field] when it is
    a non-empty string ([if corp:] in the source). *)
Definition key_of (field : pystr) (d : record) : option pystr :=
  match get field d with
  | Some (c :: k) => Some (c :: k)
  | _ => None
  end.

(** The record the company loop stores for a row. *)
Definition company_record (row : csv_row) : record :=
  dict_pop (py "updated_at") (dict_pop (py "quality") (_normalize_row row)).

(** An index built from records in order: a later record replaces an
    earlier one under the same key, a record without key is skipped. *)
Definition index_step (field : pystr) (idx : gmap pystr record) (d : record)
  : gmap pystr record :=
  match key_of field d with
  | Some k => <[k := d]> idx
  | None => idx
  end.

Definition build_index (field : pystr) (ds : list record)
  (idx : gmap pystr record) : gmap pystr record :=
  fold_left (index_step field) ds idx.

(** The records the recruit loop keeps, in file order. *)
Definition recruit_records (rs : list csv_row) : list record :=
  filter (λ d, is_Some (key_of (py "media_internal_id") d))
         (_normalize_row <$> rs).

(** The globals a rebuild from the files [cf] and [rf] publishes. *)
Definition published (w : world) (cf rf : csv_file) : cache := {|
  company_cache :=
    build_index (py "corporate_number") (company_record <$> rows cf) ∅;
  recruit_cache :=
    build_index (py "media_internal_id") (recruit_records (rows rf)) ∅;
  all_companies := company_record <$> rows cf;
  all_recruits := recruit_records (rows rf);
  _cache_loaded := true;
  _cache_loaded_at := time w;
  _cache_version := _file_version w
|}.

(** A record as [_normalize_row] leaves it: distinct trimmed keys, and
    values that are null or trimmed and non-empty. *)
Definition normalized (d : record) : Prop :=
  NoDup (keys d) ∧
  Forall (λ kv, strip kv.1 = kv.1 ∧ normalize_value kv.2 = kv.2) d.

(** No field of the record holds the empty string. *)
Definition no_empty_string (d : record) : Prop :=
  ∀ k, dict_get k d ≠ Some (Some []).

(** [load_cache_from_csv] goes past its early [return]. *)
Definition rebuilds (force : bool) (w : world) (st : cache) : bool :=
  negb (_cache_loaded st && negb force
        && bool_decide (_file_version w = _cache_version st)).

(** What the handlers answer from given globals. *)
Definition found_company (k : pystr) (st : cache) : outcome record :=
  match company_cache st !! k with
  | None => Raise (HTTPException 404 detail_company_404)
  | Some company => Return company
  end.

Definition found_recruitment (k : pystr) (st : cache)
  : outcome recruitment_response :=
  match recruit_cache st !! k with
  | None => Raise (HTTPException 404 detail_recruitment_404)
  | Some r =>
      Return {| recruitment := r;
                company :=
                  match key_of (py "corporate_number") r with
                  | Some corp => company_cache st !! corp
                  | None => None
                  end |}
  end.

Definition stats (st : cache) : check_data_response := {|
  company_count := size (company_cache st);
  recruit_count := size (recruit_cache st);
  cache_loaded := _cache_loaded st;
  cache_version := _cache_version st;
  cache_loaded_at := _cache_loaded_at st;
  source := py "csv"
|}.

(** The answer [f] computed from the globals that the step [r] left, or
    the exception of [r]. *)
Definition answer {A} (r : outcome () * cache) (f : cache → outcome A)
  : outcome A * cache :=
  match r with
  | (Return _, st') => (f st', st')
  | (Raise e, st') => (Raise e, st')
  end.

(** The requests the service answers, and the globals after one. *)
Inductive request : Type :=
  | GetCompany (corporate_number : pystr)
  | GetRecruitment (media_internal_id : pystr)
  | ListRecruitments
  | ListCompanies
  | CheckData
  | Health
  | ReloadCache.

Definition after (r : request) (w : world) (st : cache) : cache :=
  match r with
  | GetCompany k => (get_company k w st).2
  | GetRecruitment k => (get_recruitment k w st).2
  | ListRecruitments => (get_all_recruitments w st).2
  | ListCompanies => (root w st).2
  | CheckData => (check_data w st).2
  | Health => (health_check w st).2
  | ReloadCache => (reload_cache w st).2
  end.

(** The states a process can be in: the initial globals and whatever a
    sequence of requests, each in its own environment, leaves. *)
Inductive reachable : cache → Prop :=
  | reachable_initial : reachable initial_cache
  | reachable_after r w st : reachable st → reachable (after r w st).

(** The shape every reachable state has. *)
Record cache_inv (st : cache) : Prop := {
  inv_company_key : ∀ k d,
    company_cache st !! k = Some d →
    key_of (py "corporate_number") d = Some k ∧ d ∈ all_companies st;
  inv_recruit_key : ∀ k d,
    recruit_cache st !! k = Some d →
    key_of (py "media_internal_id") d = Some k ∧ d ∈ all_recruits st;
  inv_recruit_list : ∀ d,
    d ∈ all_recruits st →
    ∃ k, key_of (py "media_internal_id") d = Some k
         ∧ is_Some (recruit_cache st !! k);
  inv_companies_normalized : Forall normalized (all_companies st);
  inv_recruits_normalized : Forall normalized (all_recruits st);
  inv_unloaded : _cache_loaded st = false → st = initial_cache
}.

(** ** Sample data *)

Definition acme_row : csv_row :=
  [Field (py "corporate_number") (Some (py "1234567890123"));
   Field (py "name") (Some (py "Acme"));
   Field (py "quality") (Some (py "A"));
   Field (py "updated_at") (Some (py "2024-01-01"))].

(** The same company once more, its number surrounded by blanks. *)
Definition acme_row_again : csv_row :=
  [Field (py "corporate_number") (Some (py " 1234567890123 "));
   Field (py "name") (Some (py "Acme Holdings"));
   Field (py "quality") (Some (py "B"));
   Field (py "updated_at") None].

Definition unkeyed_company_row : csv_row :=
  [Field (py "corporate_number") (Some (py "  "));
   Field (py "name") (Some (py "Nameless"));
   Rest [py "surplus"]].

Definition job_row : csv_row :=
  [Field (py "media_internal_id") (Some (py "job-1"));
   Field (py "corporate_number") (Some (py "1234567890123"));
   Field (py "title") (Some (py "Engineer"))].

(** A second posting under the same identifier, of an unknown company. *)
Definition job_row_again : csv_row :=
  [Field (py "media_internal_id") (Some (py "job-1"));
   Field (py "corporate_number") (Some (py "999"));
   Field (py "title") (Some (py "Designer"))].

Definition unkeyed_job_row : csv_row :=
  [Field (py "media_internal_id") (Some []);
   Field (py "title") (Some (py "Ghost"))].

Definition sample_companies : csv_file :=
  {| st_mtime := 100; rows := [acme_row; unkeyed_company_row; acme_row_again];
     fault := None |}.

Definition sample_recruits : csv_file :=
  {| st_mtime := 200; rows := [job_row; unkeyed_job_row; job_row_again];
     fault := None |}.

Definition sample_world : world :=
  {| BASE_DIR := py "/var/task";
     company_csv := Some sample_companies;
     recruit_csv := Some sample_recruits;
     time := 1000 |}.

(** The globals after a first request in [sample_world]. *)
Definition sample_cache : cache := after ListCompanies sample_world initial_cache.

Definition acme_number : pystr := py "1234567890123".

(** Later on, the company file has been rewritten. *)
Definition acme_row_renamed : csv_row :=
  [Field (py "corporate_number") (Some (py "1234567890123"));
   Field (py "name") (Some (py "Acme Renamed"))].

Definition later_world : world :=
  {| BASE_DIR := py "/var/task";
     company_csv :=
       Some {| st_mtime := 300; rows := [acme_row_renamed]; fault := None |};
     recruit_csv := Some sample_recruits;
     time := 2000 |}.

(** The company file has been removed. *)
Definition missing_world : world :=
  {| BASE_DIR := py "/var/task";
     company_csv := None;
     recruit_csv := Some sample_recruits;
     time := 3000 |}.

(** ** Vocabulary of the further properties *)

(** The named cells of a row, in file order. *)
Definition named_cells (row : csv_row) : list (pystr * option pystr) :=
  omap (λ c, match c with Field k v => Some (k, v) | Rest _ => None end) row.

(** The elements of a list, each once, in the order of their first
    occurrence. *)
Definition first_occurrences (l : list pystr) : list pystr :=
  reverse (remove_dups (reverse l)).

(** The keys a list of records gives to an index, in order. *)
Definition index_keys (field : pystr) (ds : list record) : list pystr :=
  omap (key_of field) ds.

(** A decimal digit. *)
Definition is_digit (c : N) : Prop := 48 ≤ c ∧ c ≤ 57.

(** A formatted whole number: digits, after a minus sign or not. *)
Definition formatted (t : pystr) : Prop :=
  ∃ d, Forall is_digit d ∧ d ≠ [] ∧ (t = d ∨ t = 45 :: d).

(** The sign [f"{x:.0f}"] starts with. *)
Definition sign (x : Q) : pystr :=
  match (x ?= 0)%Q with Lt => py "-" | _ => [] end.

(** Two modification times that [_file_version] does not tell apart:
    the same sign and the same whole seconds after rounding. *)
Definition same_seconds (x y : Q) : Prop :=
  ((x < 0)%Q ↔ (y < 0)%Q)
  ∧ round_half_even (Qabs x) = round_half_even (Qabs y).

(** The company file rewritten within the second of its last load. *)
Definition same_second_world : world :=
  {| BASE_DIR := py "/var/task";
     company_csv :=
       Some {| st_mtime := 1002 # 10; rows := [acme_row_renamed];
               fault := None |};
     recruit_csv := Some sample_recruits;
     time := 4000 |}.

Arguments py : simpl never.

(** ** Lemmas on strings *)

Lemma lstrip_lstrip s : lstrip (lstrip s) = lstrip s.
Proof.
  induction s as [|a s IH]; simpl; [done|].
  destruct (isspace a) eqn:Ha; [done|]. simpl. by rewrite Ha.
Qed.

(** The head of a left-stripped string is not white space. *)
Lemma lstrip_head s c t : lstrip s = c :: t → isspace c = false.
Proof.
  induction s as [|a s IH]; simpl; [done|].
  destruct (isspace a) eqn:Ha; [done|]. congruence.
Qed.

(** [rstrip] keeps the first character when it is not white space. *)
Lemma rstrip_cons_nonspace c t :
  isspace c = false → ∃ t', rstrip (c :: t) = c :: t'.
Proof.
  intros Hc. unfold rstrip. rewrite reverse_cons.
  assert (∃ u, lstrip (reverse t ++ [c]) = u ++ [c]) as [u Hu].
  { induction (reverse t) as [|a r IH]; simpl.
    - rewrite Hc. by exists [].
    - destruct (isspace a); [done|]. by exists (a :: r). }
  rewrite Hu, reverse_app. simpl. eauto.
Qed.

Lemma rstrip_rstrip s : rstrip (rstrip s) = rstrip s.
Proof. unfold rstrip. by rewrite reverse_involutive, lstrip_lstrip. Qed.

Lemma lstrip_strip s : lstrip (strip s) = strip s.
Proof.
  unfold strip. destruct (lstrip s) as [|c t] eqn:Hs; [done|].
  apply lstrip_head in Hs.
  destruct (rstrip_cons_nonspace c t Hs) as [t' ->].
  simpl. by rewrite Hs.
Qed.

Lemma strip_strip s : strip (strip s) = strip s.
Proof.
  unfold strip at 1. rewrite lstrip_strip.
  unfold strip. apply rstrip_rstrip.
Qed.

Lemma normalize_value_idem v :
  normalize_value (normalize_value v) = normalize_value v.
Proof.
  destruct v as [v|]; simpl; [|done].
  destruct (decide (strip v = [])) as [He|Hne]; simpl; [done|].
  rewrite strip_strip. by destruct (decide (strip v = [])).
Qed.

(** ** Lemmas on dictionaries *)

Section PyDictFacts.
Context {V : Type}.
Implicit Types (d : dict V) (k : pystr) (v : V).

Lemma dict_set_fresh k v d : k ∉ keys d → dict_set k v d = d ++ [(k, v)].
Proof.
  induction d as [|[k' v'] d IH]; simpl; [done|].
  intros Hk. apply not_elem_of_cons in Hk as [Hne Hk].
  destruct (decide (k = k')); [done|]. by rewrite IH.
Qed.

Lemma keys_dict_set_in k v d : k ∈ keys d → keys (dict_set k v d) = keys d.
Proof.
  induction d as [|[k' v'] d IH]; simpl.
  - by intros ?%elem_of_nil.
  - intros Hk. destruct (decide (k = k')) as [->|Hne]; simpl; [done|].
    apply elem_of_cons in Hk as [?|Hk]; [done|]. by rewrite IH.
Qed.

Lemma NoDup_keys_dict_set k v d : NoDup (keys d) → NoDup (keys (dict_set k v d)).
Proof.
  intros Hd. destruct (decide (k ∈ keys d)) as [Hin|Hnin].
  - by rewrite keys_dict_set_in.
  - rewrite dict_set_fresh by done. unfold keys. rewrite fmap_app. simpl.
    apply NoDup_app. split; [done|]. split.
    + intros x Hx ->%list_elem_of_singleton. done.
    + apply NoDup_singleton.
Qed.

Lemma dict_set_elem kv k v d : kv ∈ dict_set k v d → kv = (k, v) ∨ kv ∈ d.
Proof.
  induction d as [|[k' v'] d IH]; simpl.
  - intros ->%list_elem_of_singleton. by left.
  - destruct (decide (k = k')) as [->|Hne]; intros [->|Hin]%elem_of_cons.
    + by left.
    + right. by apply list_elem_of_further.
    + right. apply list_elem_of_here.
    + destruct (IH Hin); [by left|right]. by apply list_elem_of_further.
Qed.

Lemma dict_get_set k k' v d :
  dict_get k' (dict_set k v d) = if decide (k' = k) then Some v else dict_get k' d.
Proof.
  induction d as [|[k0 v0] d IH]; simpl.
  - by destruct (decide (k' = k)).
  - destruct (decide (k = k0)) as [->|Hne]; simpl.
    + by destruct (decide (k' = k0)).
    + destruct (decide (k' = k0)) as [->|Hne'].
      * by destruct (decide (k0 = k)).
      * done.
Qed.

Lemma dict_get_elem k v d : dict_get k d = Some v → (k, v) ∈ d.
Proof.
  induction d as [|[k0 v0] d IH]; simpl; [done|].
  destruct (decide (k = k0)) as [->|Hne].
  - intros [= ->]. apply list_elem_of_here.
  - intros Hg. apply list_elem_of_further. by apply IH.
Qed.

Lemma dict_get_None k d : dict_get k d = None ↔ k ∉ keys d.
Proof.
  induction d as [|[k0 v0] d IH]; simpl.
  - split; [intros _; apply not_elem_of_nil|done].
  - destruct (decide (k = k0)) as [->|Hne].
    + split; [done|]. intros []. apply list_elem_of_here.
    + rewrite IH, not_elem_of_cons. tauto.
Qed.

Lemma dict_pop_elem kv k d : kv ∈ dict_pop k d → kv ∈ d.
Proof.
  induction d as [|[k0 v0] d IH]; simpl; [done|].
  destruct (decide (k = k0)) as [->|Hne].
  - apply list_elem_of_further.
  - intros [->|Hin]%elem_of_cons; [apply list_elem_of_here|].
    apply list_elem_of_further. by apply IH.
Qed.

Lemma dict_pop_keys k' k d : k' ∈ keys (dict_pop k d) → k' ∈ keys d.
Proof.
  unfold keys. intros [kv [-> Hin]]%list_elem_of_fmap.
  apply list_elem_of_fmap_2. by apply dict_pop_elem in Hin.
Qed.

Lemma NoDup_keys_dict_pop k d : NoDup (keys d) → NoDup (keys (dict_pop k d)).
Proof.
  induction d as [|[k0 v0] d IH]; simpl; [done|].
  intros [Hk0 Hd]%NoDup_cons.
  destruct (decide (k = k0)) as [->|Hne]; [done|]. simpl.
  apply NoDup_cons. split; [|by apply IH].
  intros Hin. apply Hk0. by apply dict_pop_keys in Hin.
Qed.

(** On a dictionary (distinct keys), [pop] removes exactly its key. *)
Lemma dict_get_pop k k' d :
  NoDup (keys d) →
  dict_get k' (dict_pop k d) = if decide (k' = k) then None else dict_get k' d.
Proof.
  induction d as [|[k0 v0] d IH]; simpl.
  - by destruct (decide (k' = k)).
  - intros [Hk0 Hd]%NoDup_cons.
    destruct (decide (k = k0)) as [->|Hne]; simpl.
    + destruct (decide (k' = k0)) as [->|Hne']; [|done].
      by apply dict_get_None.
    + destruct (decide (k' = k0)) as [->|Hne'].
      * by destruct (decide (k0 = k)).
      * by apply IH.
Qed.
End PyDictFacts.

(** ** Lemmas on [strip] *)

Lemma lstrip_spec s :
  ∃ l, s = l ++ lstrip s ∧ forallb isspace l = true
       ∧ ∀ c, head (lstrip s) = Some c → isspace c = false.
Proof.
  induction s as [|a s (l & Hs & Hl & Hh)]; simpl.
  - by exists [].
  - destruct (isspace a) eqn:Ha.
    + exists (a :: l). simpl. rewrite Ha, Hl. split; [by f_equal|done].
    + exists []. simpl. split; [done|]. split; [done|]. congruence.
Qed.

Lemma rstrip_spec s :
  ∃ r, s = rstrip s ++ r ∧ forallb isspace r = true
       ∧ ∀ c, last (rstrip s) = Some c → isspace c = false.
Proof.
  unfold rstrip. destruct (lstrip_spec (reverse s)) as (l & Hs & Hl & Hh).
  exists (reverse l). split; [|split].
  - rewrite <- reverse_app, <- Hs. by rewrite reverse_involutive.
  - apply forallb_forall. intros c Hc. rewrite forallb_forall in Hl.
    apply Hl. rewrite <- list_elem_of_In in Hc |- *.
    by apply elem_of_reverse.
  - intros c. rewrite last_reverse. apply Hh.
Qed.

(** [strip] removes a run of white space at each end and leaves a string
    that neither starts nor ends with white space. *)
Lemma strip_spec s :
  ∃ l r, s = l ++ strip s ++ r
         ∧ forallb isspace l = true ∧ forallb isspace r = true
         ∧ (∀ c, head (strip s) = Some c → isspace c = false)
         ∧ (∀ c, last (strip s) = Some c → isspace c = false).
Proof.
  destruct (lstrip_spec s) as (l & Hs & Hl & _).
  destruct (rstrip_spec (lstrip s)) as (r & Hr & Hrs & Hlast).
  exists l, r. fold (strip s) in Hr, Hlast.
  split; [by rewrite <- Hr|]. split; [done|]. split; [done|]. split; [|done].
  intros c Hc. rewrite <- lstrip_strip in Hc.
  destruct (lstrip_spec (strip s)) as (_ & _ & _ & Hh). by apply Hh.
Qed.

(** ** Lemmas on [_normalize_row] *)

Lemma normalize_value_not_empty v : normalize_value v ≠ Some [].
Proof.
  destruct v as [v|]; simpl; [|done].
  destruct (decide (strip v = [])); congruence.
Qed.

Lemma normalized_nil : normalized [].
Proof. split; [apply NoDup_nil_2|apply Forall_nil_2]. Qed.

Lemma normalize_step_normalized out c :
  normalized out → normalized (normalize_step out c).
Proof.
  intros [Hnd Hall]. destruct c as [k v|extra]; simpl; [|done]. split.
  - by apply NoDup_keys_dict_set.
  - rewrite Forall_forall in Hall. apply Forall_forall.
    intros kv [->|Hin]%dict_set_elem; [|by apply Hall]. simpl.
    split; [apply strip_strip|apply normalize_value_idem].
Qed.

Lemma fold_normalize_step_normalized row acc :
  normalized acc → normalized (fold_left normalize_step row acc).
Proof.
  revert acc. induction row as [|c row IH]; simpl; [done|].
  intros acc Hacc. by apply IH, normalize_step_normalized.
Qed.

Lemma normalize_row_normalized row : normalized (_normalize_row row).
Proof. apply fold_normalize_step_normalized, normalized_nil. Qed.

(** Re-inserting the items of a normalized record rebuilds it. *)
Lemma fold_items_normalized (d acc : record) :
  normalized (acc ++ d) → fold_left normalize_step (items d) acc = acc ++ d.
Proof.
  revert acc. induction d as [|[k v] d IH]; intros acc [Hnd Hall]; simpl.
  - by rewrite app_nil_r.
  - apply Forall_app in Hall as Hall'. destruct Hall' as [_ Hd].
    apply Forall_cons in Hd as [[Hk Hv] _]. simpl in Hk, Hv.
    rewrite Hk, Hv. rewrite dict_set_fresh.
    + rewrite IH; rewrite <- app_assoc; [done|]. by split.
    + unfold keys in Hnd. rewrite fmap_app in Hnd. simpl in Hnd.
      apply NoDup_app in Hnd as (_ & Hdisj & _). intros Hin.
      apply (Hdisj k Hin). apply list_elem_of_here.
Qed.

(** Where a key of the result comes from. *)
Lemma fold_normalize_step_elem row acc k v :
  (k, v) ∈ fold_left normalize_step row acc →
  (k, v) ∈ acc ∨
  ∃ k0 v0, Field k0 v0 ∈ row ∧ k = strip k0 ∧ v = normalize_value v0.
Proof.
  revert acc. induction row as [|c row IH]; simpl; intros acc Hin; [by left|].
  destruct (IH _ Hin) as [Hacc|(k0 & v0 & Hf & -> & ->)].
  - destruct c as [k1 v1|extra]; simpl in Hacc; [|by left].
    apply dict_set_elem in Hacc as [[= -> ->]|Hacc]; [|by left].
    right. exists k1, v1. split; [apply list_elem_of_here|done].
  - right. exists k0, v0. split; [by apply list_elem_of_further|done].
Qed.

(** Fields of other names leave a key alone. *)
Lemma fold_normalize_step_other row acc k :
  (∀ k0 v0, Field k0 v0 ∈ row → strip k0 ≠ k) →
  dict_get k (fold_left normalize_step row acc) = dict_get k acc.
Proof.
  revert acc. induction row as [|c row IH]; simpl; intros acc Hne; [done|].
  rewrite IH.
  - destruct c as [k1 v1|extra]; simpl; [|done].
    rewrite dict_get_set. destruct (decide (k = strip k1)) as [->|]; [|done].
    destruct (Hne k1 v1); [apply list_elem_of_here|done].
  - intros k0 v0 Hin. apply (Hne k0 v0). by apply list_elem_of_further.
Qed.

(** The last field of a name decides the value stored under it. *)
Lemma normalize_row_last r1 k0 v0 r2 :
  (∀ k v, Field k v ∈ r2 → strip k ≠ strip k0) →
  dict_get (strip k0) (_normalize_row (r1 ++ Field k0 v0 :: r2))
  = Some (normalize_value v0).
Proof.
  intros Hr2. unfold _normalize_row. rewrite fold_left_app. simpl.
  rewrite fold_normalize_step_other by done.
  rewrite dict_get_set. by destruct (decide (strip k0 = strip k0)).
Qed.

Lemma normalized_no_empty_string d : normalized d → no_empty_string d.
Proof.
  intros [_ Hall] k Hget. apply dict_get_elem in Hget.
  rewrite Forall_forall in Hall. destruct (Hall _ Hget) as [_ Hv].
  simpl in Hv. by apply (normalize_value_not_empty (Some [])).
Qed.

(** ** Lemmas on the indexes *)

Section Index.
Variable field : pystr.
Implicit Types (idx : gmap pystr record) (d : record) (ds : list record).

Lemma key_of_nonempty d k : key_of field d = Some k → k ≠ [] ∧ get field d = Some k.
Proof.
  unfold key_of. destruct (get field d) as [[|c k']|]; [done| |done].
  by intros [= <-].
Qed.

Lemma build_index_app ds1 ds2 idx :
  build_index field (ds1 ++ ds2) idx
  = build_index field ds2 (build_index field ds1 idx).
Proof. apply fold_left_app. Qed.

Lemma build_index_cons d ds idx :
  build_index field (d :: ds) idx
  = build_index field ds (index_step field idx d).
Proof. done. Qed.

(** Records with other keys leave an entry alone. *)
Lemma build_index_other ds idx k :
  (∀ d, d ∈ ds → key_of field d ≠ Some k) →
  build_index field ds idx !! k = idx !! k.
Proof.
  revert idx. induction ds as [|d ds IH]; intros idx Hne; [done|].
  rewrite build_index_cons, IH.
  - unfold index_step. destruct (key_of field d) as [k'|] eqn:Hk; [|done].
    apply lookup_insert_ne. intros ->.
    by destruct (Hne d (list_elem_of_here _ _)).
  - intros d' Hd'. apply Hne. by apply list_elem_of_further.
Qed.

(** The last record with a key is the one the index holds. *)
Lemma build_index_last l1 d l2 idx k :
  key_of field d = Some k →
  (∀ d', d' ∈ l2 → key_of field d' ≠ Some k) →
  build_index field (l1 ++ d :: l2) idx !! k = Some d.
Proof.
  intros Hk Hl2.
  rewrite build_index_app, build_index_cons, build_index_other by done.
  unfold index_step. rewrite Hk. apply lookup_insert_eq.
Qed.

(** Whatever the index holds under [k] has key [k] and comes from the
    records or from the initial index. *)
Lemma build_index_Some ds idx k d :
  build_index field ds idx !! k = Some d →
  idx !! k = Some d ∨ (d ∈ ds ∧ key_of field d = Some k).
Proof.
  revert idx. induction ds as [|d0 ds IH]; intros idx Hd; [by left|].
  rewrite build_index_cons in Hd. apply IH in Hd as [Hd|[Hin Hk]].
  - unfold index_step in Hd. destruct (key_of field d0) as [k'|] eqn:Hk;
      [|by left].
    destruct (decide (k' = k)) as [->|Hne].
    + rewrite lookup_insert_eq in Hd. injection Hd as ->.
      right. split; [apply list_elem_of_here|done].
    + rewrite lookup_insert_ne in Hd by done. by left.
  - right. split; [by apply list_elem_of_further|done].
Qed.

(** Every keyed record has its key in the index. *)
Lemma build_index_dom ds idx d k :
  d ∈ ds → key_of field d = Some k →
  is_Some (build_index field ds idx !! k).
Proof.
  revert idx d. induction ds as [|d0 ds IH]; intros idx d.
  - by intros ?%elem_of_nil.
  - intros Hin Hk. rewrite build_index_cons.
    destruct (decide (Exists (λ d', key_of field d' = Some k) ds))
      as [Hex|Hno].
    + apply Exists_exists in Hex as (d' & Hd' & Hk').
      by apply (IH _ _ Hd' Hk').
    + rewrite build_index_other.
      * apply elem_of_cons in Hin as [->|Hin].
        -- unfold index_step. rewrite Hk, lookup_insert_eq. eauto.
        -- destruct Hno. apply Exists_exists. eauto.
      * intros d' Hd' Hk'. apply Hno, Exists_exists. eauto.
Qed.

Lemma build_index_size ds idx :
  (size (build_index field ds idx) ≤ size idx + length ds)%nat.
Proof.
  revert idx. induction ds as [|d ds IH]; intros idx; [simpl; lia|].
  rewrite build_index_cons. etrans; [apply IH|].
  unfold index_step. simpl length. destruct (key_of field d) as [k|]; [|lia].
  destruct (idx !! k) as [d0|] eqn:Hk.
  - rewrite map_size_insert_Some by eauto. lia.
  - rewrite map_size_insert_None by done. lia.
Qed.
End Index.

(** ** Lemmas on [load_cache_from_csv] *)

Lemma company_step_eq idx lst row :
  company_step (idx, lst) row
  = (index_step (py "corporate_number") idx (company_record row),
     lst ++ [company_record row]).
Proof.
  unfold company_step, index_step, key_of, company_record.
  by destruct (get _ _) as [[|c k]|].
Qed.

Lemma fold_company_step rs idx lst :
  fold_left company_step rs (idx, lst)
  = (build_index (py "corporate_number") (company_record <$> rs) idx,
     lst ++ (company_record <$> rs)).
Proof.
  revert idx lst. induction rs as [|row rs IH]; intros idx lst.
  - simpl. by rewrite app_nil_r.
  - cbn [fold_left]. rewrite fmap_cons, company_step_eq, IH.
    by rewrite build_index_cons, <- app_assoc.
Qed.

Lemma recruit_records_cons row rs :
  recruit_records (row :: rs)
  = match key_of (py "media_internal_id") (_normalize_row row) with
    | Some _ => _normalize_row row :: recruit_records rs
    | None => recruit_records rs
    end.
Proof.
  unfold recruit_records. rewrite fmap_cons, filter_cons.
  destruct (key_of _ _) eqn:Hk; case_decide as Hd; try done.
  destruct Hd. eauto.
Qed.

Lemma fold_recruit_step rs idx lst :
  fold_left recruit_step rs (idx, lst)
  = (build_index (py "media_internal_id") (recruit_records rs) idx,
     lst ++ recruit_records rs).
Proof.
  revert idx lst. induction rs as [|row rs IH]; intros idx lst.
  - simpl. by rewrite app_nil_r.
  - cbn [fold_left]. rewrite recruit_records_cons. unfold recruit_step at 2.
    unfold key_of. destruct (get _ _) as [[|c k]|] eqn:Hg; rewrite IH; try done.
    rewrite build_index_cons, <- app_assoc. unfold index_step, key_of.
    by rewrite Hg.
Qed.

(** The whole of [load_cache_from_csv], case by case. *)
Lemma load_outcome force w st :
  load_cache_from_csv force w st =
  match company_csv w, recruit_csv w with
  | None, _ =>
      (Raise (FileNotFoundError (py "Missing " ++ path_str w COMPANY_CSV)), st)
  | Some _, None =>
      (Raise (FileNotFoundError (py "Missing " ++ path_str w RECRUIT_CSV)), st)
  | Some cf, Some rf =>
      if rebuilds force w st then
        match fault cf, fault rf with
        | Some msg, _ => (Raise (ReaderError msg), st)
        | None, Some msg => (Raise (ReaderError msg), st)
        | None, None => (Return (), published w cf rf)
        end
      else (Return (), st)
  end.
Proof.
  unfold load_cache_from_csv, file_at, rebuilds.
  destruct (company_csv w) as [cf|]; [|done].
  destruct (recruit_csv w) as [rf|]; [|done].
  unfold bind, globals.
  destruct (_cache_loaded st && negb force && _); simpl; [done|].
  unfold for_rows. rewrite fold_company_step, fold_recruit_step.
  destruct (fault cf); [done|]. destruct (fault rf); done.
Qed.

Lemma ensure_outcome w st :
  ensure_cache_loaded w st =
  if _cache_loaded st then (Return (), st) else load_cache_from_csv false w st.
Proof.
  unfold ensure_cache_loaded, bind, globals. by destruct (_cache_loaded st).
Qed.

(** A load leaves the globals alone or publishes a whole snapshot. *)
Lemma load_state force w st :
  (load_cache_from_csv force w st).2 = st ∨
  ∃ cf rf, company_csv w = Some cf ∧ recruit_csv w = Some rf
           ∧ load_cache_from_csv force w st = (Return (), published w cf rf).
Proof.
  rewrite load_outcome.
  destruct (company_csv w) as [cf|]; [|by left].
  destruct (recruit_csv w) as [rf|]; [|by left].
  destruct (rebuilds force w st); [|by left].
  destruct (fault cf); [by left|]. destruct (fault rf); [by left|].
  right. by exists cf, rf.
Qed.

Lemma load_raise force w st e st' :
  load_cache_from_csv force w st = (Raise e, st') → st' = st.
Proof.
  intros Hl. destruct (load_state force w st) as [Hs|(cf & rf & _ & _ & Hs)].
  - rewrite Hl in Hs. done.
  - rewrite Hl in Hs. done.
Qed.

(** ** Lemmas on the stored records *)

Lemma dict_pop_normalized k d : normalized d → normalized (dict_pop k d).
Proof.
  intros [Hnd Hall]. split; [by apply NoDup_keys_dict_pop|].
  rewrite Forall_forall in Hall. apply Forall_forall.
  intros kv Hin%dict_pop_elem. by apply Hall.
Qed.

Lemma company_record_normalized row : normalized (company_record row).
Proof. do 2 apply dict_pop_normalized. apply normalize_row_normalized. Qed.

(** The stored company record is the normalized row without its
    [quality] and [updated_at] fields. *)
Lemma company_record_get row f :
  dict_get f (company_record row) =
  if decide (f = py "updated_at") then None
  else if decide (f = py "quality") then None
  else dict_get f (_normalize_row row).
Proof.
  unfold company_record.
  pose proof (normalize_row_normalized row) as [Hnd _].
  rewrite dict_get_pop by by apply NoDup_keys_dict_pop.
  destruct (decide (f = py "updated_at")); [done|].
  by rewrite dict_get_pop.
Qed.

Lemma company_record_key row :
  key_of (py "corporate_number") (company_record row)
  = key_of (py "corporate_number") (_normalize_row row).
Proof.
  unfold key_of, get. rewrite company_record_get.
  destruct (decide (_ = py "updated_at")) as [He|_]; [by vm_compute in He|].
  destruct (decide (_ = py "quality")) as [He|_]; [by vm_compute in He|].
  done.
Qed.

Lemma recruit_records_elem d rs :
  d ∈ recruit_records rs ↔
  is_Some (key_of (py "media_internal_id") d) ∧ d ∈ _normalize_row <$> rs.
Proof. unfold recruit_records. by rewrite list_elem_of_filter. Qed.

(** ** The invariant of the globals *)

Lemma initial_inv : cache_inv initial_cache.
Proof.
  split; simpl.
  - intros k d. by rewrite lookup_empty.
  - intros k d. by rewrite lookup_empty.
  - by intros d ?%elem_of_nil.
  - apply Forall_nil_2.
  - apply Forall_nil_2.
  - done.
Qed.

Lemma published_inv w cf rf : cache_inv (published w cf rf).
Proof.
  split; simpl.
  - intros k d [Hd|[Hin Hk]]%build_index_Some; [by rewrite lookup_empty in Hd|].
    done.
  - intros k d [Hd|[Hin Hk]]%build_index_Some; [by rewrite lookup_empty in Hd|].
    done.
  - intros d Hin. pose proof Hin as [[k Hk] _]%recruit_records_elem.
    exists k. split; [done|]. by apply (build_index_dom _ _ _ d).
  - apply Forall_forall. intros d [row [-> _]]%list_elem_of_fmap.
    apply company_record_normalized.
  - apply Forall_forall.
    intros d [_ [row [-> _]]%list_elem_of_fmap]%recruit_records_elem.
    apply normalize_row_normalized.
  - done.
Qed.

Lemma load_inv force w st :
  cache_inv st → cache_inv (load_cache_from_csv force w st).2.
Proof.
  intros Hst. destruct (load_state force w st) as [->|(cf & rf & _ & _ & ->)];
    [done|apply published_inv].
Qed.

(** ** The handlers, case by case *)

Lemma get_company_outcome k w st :
  get_company k w st = answer (ensure_cache_loaded w st) (found_company k).
Proof.
  unfold get_company, bind, globals, answer, found_company.
  destruct (ensure_cache_loaded w st) as [[[]|e] st']; [|done].
  by destruct (company_cache st' !! k).
Qed.

Lemma get_recruitment_outcome k w st :
  get_recruitment k w st
  = answer (ensure_cache_loaded w st) (found_recruitment k).
Proof.
  unfold get_recruitment, bind, globals, answer, found_recruitment.
  destruct (ensure_cache_loaded w st) as [[[]|e] st']; [|done].
  destruct (recruit_cache st' !! k) as [r|]; [|done].
  unfold ret, key_of. by destruct (get _ r) as [[|c corp]|].
Qed.

Lemma get_all_recruitments_outcome w st :
  get_all_recruitments w st
  = answer (ensure_cache_loaded w st) (λ st', Return (all_recruits st')).
Proof.
  unfold get_all_recruitments, bind, globals, answer.
  by destruct (ensure_cache_loaded w st) as [[[]|e] st'].
Qed.

Lemma root_outcome w st :
  root w st
  = answer (ensure_cache_loaded w st) (λ st', Return (all_companies st')).
Proof.
  unfold root, bind, globals, answer.
  by destruct (ensure_cache_loaded w st) as [[[]|e] st'].
Qed.

Lemma check_data_outcome w st :
  check_data w st
  = answer (ensure_cache_loaded w st) (λ st', Return (stats st')).
Proof.
  unfold check_data, bind, globals, answer.
  by destruct (ensure_cache_loaded w st) as [[[]|e] st'].
Qed.

Lemma health_check_outcome w st :
  health_check w st =
  match ensure_cache_loaded w st with
  | (Return _, st') =>
      (Return {| health_status := py "healthy";
                 health_source := py "csv";
                 companies := size (company_cache st');
                 recruitments := size (recruit_cache st');
                 cache_status := py "active" |}, st')
  | (Raise e, st') => (Raise (HTTPException 500 (str_exn e)), st')
  end.
Proof.
  unfold health_check, try_except, bind, globals.
  by destruct (ensure_cache_loaded w st) as [[[]|e] st'].
Qed.

Lemma reload_cache_outcome w st :
  reload_cache w st =
  match load_cache_from_csv true w st with
  | (Return _, st') =>
      (Return {| reload_status := py "success";
                 companies_loaded := size (company_cache st');
                 recruitments_loaded := size (recruit_cache st');
                 reload_cache_version := _cache_version st' |}, st')
  | (Raise e, st') => (Raise (HTTPException 500 (str_exn e)), st')
  end.
Proof.
  unfold reload_cache, try_except, bind, globals.
  by destruct (load_cache_from_csv true w st) as [[[]|e] st'].
Qed.

Lemma answer_return {A} st (f : cache → outcome A) :
  answer (Return (), st) f = (f st, st).
Proof. done. Qed.

Lemma ensure_loaded w st :
  _cache_loaded st = true → ensure_cache_loaded w st = (Return (), st).
Proof. intros Hl. by rewrite ensure_outcome, Hl. Qed.

(** A successful load that went past the early return published the
    snapshot of the two files. *)
Lemma load_rebuilt force w st st' :
  load_cache_from_csv force w st = (Return (), st') →
  rebuilds force w st = true →
  ∃ cf rf, company_csv w = Some cf ∧ recruit_csv w = Some rf
           ∧ fault cf = None ∧ fault rf = None ∧ st' = published w cf rf.
Proof.
  rewrite load_outcome. intros Hl Hr.
  destruct (company_csv w) as [cf|]; [|done].
  destruct (recruit_csv w) as [rf|]; [|done].
  rewrite Hr in Hl.
  destruct (fault cf) eqn:Hcf; [done|]. destruct (fault rf) eqn:Hrf; [done|].
  injection Hl as <-. by exists cf, rf.
Qed.

(** A request leaves the globals as a load does. *)
Lemma after_state r w st :
  after r w st = st ∨ ∃ force, after r w st = (load_cache_from_csv force w st).2.
Proof.
  assert (ensure_cache_loaded w st = (Return (), st) ∨
          ensure_cache_loaded w st = load_cache_from_csv false w st) as He.
  { rewrite ensure_outcome. destruct (_cache_loaded st); eauto. }
  destruct r; simpl;
    rewrite ?get_company_outcome, ?get_recruitment_outcome,
      ?get_all_recruitments_outcome, ?root_outcome, ?check_data_outcome,
      ?health_check_outcome, ?reload_cache_outcome.
  1-6: destruct He as [-> | ->]; [by left|right; exists false];
       unfold answer;
       by destruct (load_cache_from_csv false w st) as [[[]|e] st'].
  right. exists true.
  by destruct (load_cache_from_csv true w st) as [[[]|e] st'].
Qed.

Lemma reachable_inv st : reachable st → cache_inv st.
Proof.
  induction 1 as [|r w st _ IH]; [apply initial_inv|].
  destruct (after_state r w st) as [->|[force ->]]; [done|by apply load_inv].
Qed.

(** ** Records of a state that satisfies the invariant *)

Lemma inv_company_normalized st k d :
  cache_inv st → company_cache st !! k = Some d → normalized d.
Proof.
  intros Hinv Hd. destruct (inv_company_key st Hinv k d Hd) as [_ Hin].
  pose proof (inv_companies_normalized st Hinv) as Hall.
  rewrite Forall_forall in Hall. by apply Hall.
Qed.

Lemma inv_recruit_normalized st k d :
  cache_inv st → recruit_cache st !! k = Some d → normalized d.
Proof.
  intros Hinv Hd. destruct (inv_recruit_key st Hinv k d Hd) as [_ Hin].
  pose proof (inv_recruits_normalized st Hinv) as Hall.
  rewrite Forall_forall in Hall. by apply Hall.
Qed.

Lemma sample_cache_reachable : reachable sample_cache.
Proof. apply reachable_after, reachable_initial. Qed.

(** The state in which a handler answers is reachable when the state it
    started from is. *)
Lemma answer_inv {A} w st (f : cache → outcome A) (a : A) :
  reachable st →
  (answer (ensure_cache_loaded w st) f).1 = Return a →
  ∃ st', cache_inv st' ∧ f st' = Return a
         ∧ (answer (ensure_cache_loaded w st) f).2 = st'.
Proof.
  intros Hr. rewrite ensure_outcome.
  destruct (_cache_loaded st).
  - simpl. intros Hf. exists st. split; [by apply reachable_inv|done].
  - pose proof (load_inv false w st (reachable_inv _ Hr)) as Hinv.
    destruct (load_cache_from_csv false w st) as [[[]|e] st']; simpl; [|done].
    intros Hf. by exists st'.
Qed.

(** On a normalized record the key of an index is the field itself. *)
Lemma normalized_key_of f d : normalized d → key_of f d = get f d.
Proof.
  intros Hd. unfold key_of. destruct (get f d) as [[|c k]|] eqn:Hg; try done.
  destruct (normalized_no_empty_string d Hd f).
  unfold get in Hg. destruct (dict_get f d); by subst.
Qed.

Lemma normalize_row_key f row :
  key_of f (_normalize_row row) = get f (_normalize_row row).
Proof. apply normalized_key_of, normalize_row_normalized. Qed.

Lemma company_record_corporate_number row :
  key_of (py "corporate_number") (company_record row)
  = get (py "corporate_number") (_normalize_row row).
Proof. by rewrite company_record_key, normalize_row_key. Qed.

(** * The claims *)

(** ** Normalization *)

(** C10. Normalization is idempotent: normalizing the items of a record
    that [_normalize_row] produced gives that record back, for every
    input row. *)
Theorem normalize_row_idempotent (row : csv_row) :
  _normalize_row (items (_normalize_row row)) = _normalize_row row.
Proof.
  unfold _normalize_row at 1.
  rewrite (fold_items_normalized (_normalize_row row) []); [done|].
  apply normalize_row_normalized.
Qed.

(** C7. At ingest every field of every row is normalized: [strip] removes
    the white space around a string; each stored key is the trimmed name
    of a field of the row and its value the normalized value of that
    field, the last field of a name deciding; a value that is empty after
    trimming is stored as null. No record a handler serves holds an empty
    string. *)
Theorem normalize_row_trims_and_nulls :
  (∀ s, ∃ l r, s = l ++ strip s ++ r
               ∧ forallb isspace l = true ∧ forallb isspace r = true
               ∧ (∀ c, head (strip s) = Some c → isspace c = false)
               ∧ (∀ c, last (strip s) = Some c → isspace c = false))
  ∧ (∀ v, normalize_value v =
          match v with
          | None => None
          | Some s => if decide (strip s = []) then None else Some (strip s)
          end)
  ∧ (∀ row k v, (k, v) ∈ _normalize_row row →
       ∃ k0 v0, Field k0 v0 ∈ row ∧ k = strip k0 ∧ v = normalize_value v0)
  ∧ (∀ r1 k0 v0 r2,
       (∀ k v, Field k v ∈ r2 → strip k ≠ strip k0) →
       dict_get (strip k0) (_normalize_row (r1 ++ Field k0 v0 :: r2))
       = Some (normalize_value v0))
  ∧ (∀ row, no_empty_string (_normalize_row row))
  ∧ (∀ st w k, reachable st →
       (∀ d, (get_company k w st).1 = Return d → no_empty_string d)
       ∧ (∀ r, (get_recruitment k w st).1 = Return r →
            no_empty_string (recruitment r)
            ∧ ∀ c, company r = Some c → no_empty_string c)
       ∧ (∀ ds, (get_all_recruitments w st).1 = Return ds →
            Forall no_empty_string ds)
       ∧ (∀ ds, (root w st).1 = Return ds → Forall no_empty_string ds)).
Proof.
  split; [apply strip_spec|]. split; [done|].
  split.
  { intros row k v Hin.
    apply fold_normalize_step_elem in Hin as [Hin|Hin]; [|done].
    by apply elem_of_nil in Hin. }
  split; [apply normalize_row_last|].
  split.
  { intros row. apply normalized_no_empty_string, normalize_row_normalized. }
  intros st w k Hr. split; [|split; [|split]].
  - intros d. rewrite get_company_outcome.
    intros (st' & Hinv & Hf & _)%answer_inv; [|done].
    unfold found_company in Hf.
    destruct (company_cache st' !! k) as [d'|] eqn:Hd; [|done].
    injection Hf as ->.
    by apply normalized_no_empty_string, (inv_company_normalized st' k).
  - intros r. rewrite get_recruitment_outcome.
    intros (st' & Hinv & Hf & _)%answer_inv; [|done].
    unfold found_recruitment in Hf.
    destruct (recruit_cache st' !! k) as [d'|] eqn:Hd; [|done].
    injection Hf as <-. simpl. split.
    + by apply normalized_no_empty_string, (inv_recruit_normalized st' k).
    + intros c Hc. destruct (key_of _ d') as [corp|]; [|done].
      by apply normalized_no_empty_string, (inv_company_normalized st' corp).
  - intros ds. rewrite get_all_recruitments_outcome.
    intros (st' & Hinv & [= <-] & _)%answer_inv; [|done].
    eapply Forall_impl; [apply (inv_recruits_normalized st' Hinv)|].
    apply normalized_no_empty_string.
  - intros ds. rewrite root_outcome.
    intros (st' & Hinv & [= <-] & _)%answer_inv; [|done].
    eapply Forall_impl; [apply (inv_companies_normalized st' Hinv)|].
    apply normalized_no_empty_string.
Qed.

Lemma normalize_row_trims_and_nulls_witness :
  reachable sample_cache
  ∧ Forall no_empty_string (all_companies sample_cache).
Proof.
  split; [apply sample_cache_reachable|].
  destruct normalize_row_trims_and_nulls as (_ & _ & _ & _ & _ & Hserved).
  destruct (Hserved sample_cache sample_world [] sample_cache_reachable)
    as (_ & _ & _ & Hroot).
  apply Hroot. reflexivity.
Defined.

(** ** Loading and staleness *)

Lemma rebuilds_forced w st : rebuilds true w st = true.
Proof. unfold rebuilds. by destruct (_cache_loaded st). Qed.

Lemma rebuilds_unloaded force w st :
  _cache_loaded st = false → rebuilds force w st = true.
Proof. unfold rebuilds. by intros ->. Qed.

Lemma rebuilds_unchanged w st :
  _cache_loaded st = true → _file_version w = _cache_version st →
  rebuilds false w st = false.
Proof.
  unfold rebuilds. intros -> Hv. simpl. by rewrite bool_decide_eq_true_2.
Qed.

(** C1, as stated, fails: [sample_cache] is loaded and its version token
    differs from the one of [later_world], yet a query in [later_world]
    is answered from the old snapshot and leaves the globals alone, where
    a reload would have answered with the rewritten record. *)
Lemma stale_query_counterexample :
  reachable sample_cache
  ∧ _cache_loaded sample_cache = true
  ∧ _file_version later_world ≠ _cache_version sample_cache
  ∧ get_company acme_number later_world sample_cache
    = (Return (company_record acme_row_again), sample_cache)
  ∧ get_company acme_number later_world
      (after ReloadCache later_world sample_cache)
    = (Return (company_record acme_row_renamed),
       after ReloadCache later_world sample_cache)
  ∧ company_record acme_row_renamed ≠ company_record acme_row_again.
Proof.
  split; [apply sample_cache_reachable|].
  split; [reflexivity|].
  split; [by vm_compute|].
  split; [by vm_compute|].
  split; by vm_compute.
Qed.

(** C1, amended. Every query handler first runs [ensure_cache_loaded],
    which loads (a full, non-forced load) only when no snapshot has been
    published; once a snapshot is published the handler answers from it
    and leaves the globals alone: neither the version token nor the files
    are looked at. *)
Theorem queries_load_only_when_unloaded (w : world) (st : cache) (k : pystr) :
  let served :=
    if _cache_loaded st then (Return (), st)
    else load_cache_from_csv false w st in
  ensure_cache_loaded w st = served
  ∧ get_company k w st = answer served (found_company k)
  ∧ get_recruitment k w st = answer served (found_recruitment k)
  ∧ get_all_recruitments w st
    = answer served (λ st', Return (all_recruits st'))
  ∧ root w st = answer served (λ st', Return (all_companies st'))
  ∧ check_data w st = answer served (λ st', Return (stats st'))
  ∧ (_cache_loaded st = false → rebuilds false w st = true).
Proof.
  simpl. rewrite <- ensure_outcome.
  split; [done|]. split; [apply get_company_outcome|].
  split; [apply get_recruitment_outcome|].
  split; [apply get_all_recruitments_outcome|].
  split; [apply root_outcome|]. split; [apply check_data_outcome|].
  apply rebuilds_unloaded.
Qed.

Lemma queries_load_only_when_unloaded_witness :
  _cache_loaded initial_cache = false
  ∧ rebuilds false sample_world initial_cache = true.
Proof.
  split; [reflexivity|].
  apply (queries_load_only_when_unloaded sample_world initial_cache []).
  reflexivity.
Defined.

(** C2. When a source file is missing, [load_cache_from_csv] raises
    [FileNotFoundError] with the path of the missing file in its message
    (the reload endpoint turns it into a 500 with that message), and the
    globals are exactly what they were; whenever a load raises, for a
    missing file or for a reader error, nothing has been published; a
    snapshot loaded before still answers every query. *)
Theorem load_failure_keeps_snapshot (force : bool) (w : world) (st : cache) :
  (company_csv w = None →
     let msg := py "Missing " ++ path_str w COMPANY_CSV in
     load_cache_from_csv force w st = (Raise (FileNotFoundError msg), st)
     ∧ reload_cache w st = (Raise (HTTPException 500 msg), st))
  ∧ (is_Some (company_csv w) → recruit_csv w = None →
     let msg := py "Missing " ++ path_str w RECRUIT_CSV in
     load_cache_from_csv force w st = (Raise (FileNotFoundError msg), st)
     ∧ reload_cache w st = (Raise (HTTPException 500 msg), st))
  ∧ (∀ cf rf msg,
       company_csv w = Some cf → recruit_csv w = Some rf →
       rebuilds force w st = true →
       fault cf = Some msg ∨ (fault cf = None ∧ fault rf = Some msg) →
       load_cache_from_csv force w st = (Raise (ReaderError msg), st))
  ∧ (∀ e st', load_cache_from_csv force w st = (Raise e, st') → st' = st)
  ∧ (∀ e st', reload_cache w st = (Raise e, st') → st' = st)
  ∧ (∀ e st', ensure_cache_loaded w st = (Raise e, st') → st' = st)
  ∧ (_cache_loaded st = true → ∀ k,
       get_company k w st = (found_company k st, st)
       ∧ get_recruitment k w st = (found_recruitment k st, st)
       ∧ get_all_recruitments w st = (Return (all_recruits st), st)
       ∧ root w st = (Return (all_companies st), st)
       ∧ check_data w st = (Return (stats st), st)).
Proof.
  split; [|split; [|split; [|split; [|split; [|split]]]]].
  - intros Hc. simpl. rewrite reload_cache_outcome, !load_outcome, Hc. done.
  - intros [cf Hc] Hr. simpl.
    rewrite reload_cache_outcome, !load_outcome, Hc, Hr. done.
  - intros cf rf msg Hc Hrf Hr Hfault. rewrite load_outcome, Hc, Hrf, Hr.
    destruct Hfault as [-> | [-> ->]]; done.
  - apply load_raise.
  - intros e st'. rewrite reload_cache_outcome.
    destruct (load_cache_from_csv true w st) as [[[]|e0] st0] eqn:Hl; [done|].
    intros [= _ <-]. by apply load_raise in Hl.
  - intros e st'. rewrite ensure_outcome.
    destruct (_cache_loaded st); [done|]. apply load_raise.
  - intros Hl k.
    rewrite get_company_outcome, get_recruitment_outcome,
      get_all_recruitments_outcome, root_outcome, check_data_outcome.
    by rewrite ensure_loaded.
Qed.

Lemma load_failure_keeps_snapshot_witness :
  company_csv missing_world = None
  ∧ _cache_loaded sample_cache = true
  ∧ reload_cache missing_world sample_cache
    = (Raise (HTTPException 500 (py "Missing /var/task/source/company.csv")),
       sample_cache)
  ∧ root missing_world sample_cache
    = (Return (all_companies sample_cache), sample_cache).
Proof.
  split; [reflexivity|]. split; [reflexivity|].
  destruct (load_failure_keeps_snapshot true missing_world sample_cache)
    as (Hmissing & _ & _ & _ & _ & _ & Hquery).
  split.
  - apply Hmissing. reflexivity.
  - apply (Hquery eq_refl []).
Defined.

(** C3. When a snapshot exists and the version token computed from the
    files equals the cached one, a load with [force = false] leaves all
    the globals, indexes and load time included, as they were; a load with
    [force = true] never takes that way out: whatever the globals and the
    token, it publishes the snapshot rebuilt from the two files. *)
Theorem reload_noop_unless_forced (w : world) (st : cache) :
  (_cache_loaded st = true → _file_version w = _cache_version st →
     (load_cache_from_csv false w st).2 = st
     ∧ (is_Some (company_csv w) → is_Some (recruit_csv w) →
        load_cache_from_csv false w st = (Return (), st)))
  ∧ rebuilds true w st = true
  ∧ (∀ cf rf,
       company_csv w = Some cf → recruit_csv w = Some rf →
       fault cf = None → fault rf = None →
       load_cache_from_csv true w st = (Return (), published w cf rf)
       ∧ reload_cache w st
         = (Return {| reload_status := py "success";
                      companies_loaded :=
                        size (company_cache (published w cf rf));
                      recruitments_loaded :=
                        size (recruit_cache (published w cf rf));
                      reload_cache_version := _file_version w |},
            published w cf rf)).
Proof.
  split; [|split].
  - intros Hl Hv. pose proof (rebuilds_unchanged w st Hl Hv) as Hr.
    rewrite load_outcome, Hr. split.
    + destruct (company_csv w); [|done]. by destruct (recruit_csv w).
    + by intros [cf ->] [rf ->].
  - apply rebuilds_forced.
  - intros cf rf Hc Hr Hcf Hrf.
    rewrite reload_cache_outcome, !load_outcome, Hc, Hr, rebuilds_forced.
    by rewrite Hcf, Hrf.
Qed.

Lemma reload_noop_unless_forced_witness :
  _cache_loaded sample_cache = true
  ∧ _file_version sample_world = _cache_version sample_cache
  ∧ load_cache_from_csv false sample_world sample_cache
    = (Return (), sample_cache)
  ∧ load_cache_from_csv true later_world sample_cache
    = (Return (),
       published later_world
         {| st_mtime := 300; rows := [acme_row_renamed]; fault := None |}
         sample_recruits).
Proof.
  split; [reflexivity|]. split; [reflexivity|].
  split.
  - destruct (reload_noop_unless_forced sample_world sample_cache)
      as (Hnoop & _ & _).
    apply (Hnoop eq_refl eq_refl); eexists; reflexivity.
  - destruct (reload_noop_unless_forced later_world sample_cache)
      as (_ & _ & Hforced).
    apply (Hforced _ _ eq_refl eq_refl eq_refl eq_refl).
Defined.

(** ** The company index *)

(** C8. Every record of the company index carries, as its
    [corporate_number], the non-empty key it is stored under; after a
    load every row of the company file is in the ordered list, in file
    order, which [root] serves, and a row whose [corporate_number] is
    absent or null after normalization is in that list and under no key
    of the index. *)
Theorem company_index_keyed :
  (∀ st, reachable st → ∀ k d,
     company_cache st !! k = Some d →
     get (py "corporate_number") d = Some k ∧ k ≠ [] ∧ d ∈ all_companies st)
  ∧ (∀ force w st st' cf,
       load_cache_from_csv force w st = (Return (), st') →
       rebuilds force w st = true →
       company_csv w = Some cf →
       all_companies st' = company_record <$> rows cf
       ∧ (∀ w', root w' st' = (Return (all_companies st'), st'))
       ∧ ∀ row, row ∈ rows cf →
           get (py "corporate_number") (_normalize_row row) = None →
           company_record row ∈ all_companies st'
           ∧ ∀ k, company_cache st' !! k ≠ Some (company_record row)).
Proof.
  split.
  - intros st Hinv%reachable_inv k d Hd.
    destruct (inv_company_key st Hinv k d Hd) as [Hk Hin].
    apply key_of_nonempty in Hk as [Hne Hg]. done.
  - intros force w st st' cf Hl Hr Hc.
    destruct (load_rebuilt force w st st' Hl Hr)
      as (cf' & rf & Hc' & _ & _ & _ & ->).
    rewrite Hc in Hc'. injection Hc' as <-.
    split; [done|]. split.
    { intros w'. by rewrite root_outcome, ensure_loaded. }
    intros row Hrow Hkey. split.
    + simpl. by apply list_elem_of_fmap_2.
    + intros k Hk.
      destruct (inv_company_key _ (published_inv w cf rf) k _ Hk) as [Hk' _].
      rewrite company_record_corporate_number in Hk'. congruence.
Qed.

Lemma company_index_keyed_witness :
  reachable sample_cache
  ∧ company_cache sample_cache !! acme_number
    = Some (company_record acme_row_again)
  ∧ get (py "corporate_number") (company_record acme_row_again)
    = Some acme_number
  ∧ get (py "corporate_number") (_normalize_row unkeyed_company_row) = None
  ∧ company_record unkeyed_company_row ∈ all_companies sample_cache.
Proof.
  split; [apply sample_cache_reachable|].
  split; [reflexivity|].
  destruct company_index_keyed as [Hindex Hlist].
  split.
  - apply (Hindex sample_cache sample_cache_reachable acme_number).
    reflexivity.
  - split; [reflexivity|].
    apply (Hlist false sample_world initial_cache sample_cache
             sample_companies eq_refl eq_refl eq_refl).
    + apply list_elem_of_further, list_elem_of_here.
    + reflexivity.
Defined.

(** ** Joined lookups *)

(** C6. For a key of the recruit index [get_recruitment] returns the
    record stored under that key, never a 404, and the company beside it
    is present exactly when the record's [corporate_number] is non-null
    and is a key of the company index; it is then the record of that
    key. *)
Theorem recruitment_company_iff_resolves (st : cache) (w : world) (k : pystr) :
  reachable st →
  let r := get_recruitment k w st in
  is_Some (recruit_cache r.2 !! k) →
  ∃ resp,
    r.1 = Return resp
    ∧ recruit_cache r.2 !! k = Some (recruitment resp)
    ∧ (is_Some (company resp) ↔
       ∃ corp, get (py "corporate_number") (recruitment resp) = Some corp
               ∧ is_Some (company_cache r.2 !! corp))
    ∧ (∀ corp, get (py "corporate_number") (recruitment resp) = Some corp →
               company resp = company_cache r.2 !! corp)
    ∧ (get (py "corporate_number") (recruitment resp) = None →
       company resp = None).
Proof.
  intros Hr. simpl. rewrite get_recruitment_outcome, ensure_outcome.
  pose proof (reachable_inv st Hr) as Hst.
  assert (∀ st', cache_inv st' → is_Some (recruit_cache st' !! k) →
    ∃ resp, found_recruitment k st' = Return resp
      ∧ recruit_cache st' !! k = Some (recruitment resp)
      ∧ (is_Some (company resp) ↔
         ∃ corp, get (py "corporate_number") (recruitment resp) = Some corp
                 ∧ is_Some (company_cache st' !! corp))
      ∧ (∀ corp, get (py "corporate_number") (recruitment resp) = Some corp →
                 company resp = company_cache st' !! corp)
      ∧ (get (py "corporate_number") (recruitment resp) = None →
         company resp = None)) as Hfound.
  { intros st' Hinv [d Hd]. unfold found_recruitment. rewrite Hd.
    eexists. split; [done|]. simpl. split; [done|].
    assert (∀ corp, get (py "corporate_number") d = Some corp →
            is_Some (company_cache st' !! corp) →
            key_of (py "corporate_number") d = Some corp) as Hkey.
    { intros corp Hg [cd Hcd].
      destruct (inv_company_key st' Hinv corp cd Hcd) as [Hk _].
      apply key_of_nonempty in Hk as [Hne _].
      unfold key_of. rewrite Hg. by destruct corp. }
    split; [split|split].
    - destruct (key_of _ d) as [corp|] eqn:Hk; [|by intros [? ?]].
      intros Hsome. exists corp. split; [|done].
      by apply key_of_nonempty in Hk as [_ Hg].
    - intros (corp & Hg & Hsome). by rewrite (Hkey corp Hg Hsome).
    - intros corp Hg.
      destruct (company_cache st' !! corp) as [cd|] eqn:Hcd.
      + rewrite (Hkey corp Hg); [done|]. rewrite Hcd. eauto.
      + destruct (key_of _ d) as [corp'|] eqn:Hk; [|done].
        apply key_of_nonempty in Hk as [_ Hg']. congruence.
    - intros Hg. unfold key_of. by rewrite Hg. }
  destruct (_cache_loaded st) eqn:Hloaded; simpl.
  - by apply Hfound.
  - pose proof (load_inv false w st Hst) as Hinv.
    destruct (load_cache_from_csv false w st) as [[[]|e] st'] eqn:Hl; simpl.
    + by apply Hfound.
    + apply load_raise in Hl as ->.
      rewrite (inv_unloaded st Hst Hloaded). simpl.
      rewrite lookup_empty. by intros [? ?].
Qed.

Lemma recruitment_company_iff_resolves_witness :
  reachable sample_cache
  ∧ is_Some (recruit_cache sample_cache !! py "job-1")
  ∧ ∃ resp,
      (get_recruitment (py "job-1") sample_world sample_cache).1 = Return resp
      ∧ recruitment resp = _normalize_row job_row_again
      ∧ company resp = None.
Proof.
  split; [apply sample_cache_reachable|].
  split; [eexists; reflexivity|].
  destruct (recruitment_company_iff_resolves sample_cache sample_world
              (py "job-1") sample_cache_reachable)
    as (resp & Hret & Hrec & _ & Hcomp & _).
  - eexists. reflexivity.
  - exists resp. split; [exact Hret|].
    assert (recruitment resp = _normalize_row job_row_again) as Hrow.
    { apply (inj Some). rewrite <- Hrec. reflexivity. }
    split; [exact Hrow|].
    rewrite (Hcomp (py "999")).
    + reflexivity.
    + rewrite Hrow. reflexivity.
Defined.

(** ** Rows, lists and indexes after a load *)

(** The last row of the company file with a given number is the record
    of that number in a published snapshot. *)
Lemma published_company_last w cf rf l1 row l2 k :
  rows cf = l1 ++ row :: l2 →
  get (py "corporate_number") (_normalize_row row) = Some k →
  (∀ row', row' ∈ l2 →
     get (py "corporate_number") (_normalize_row row') ≠ Some k) →
  company_cache (published w cf rf) !! k = Some (company_record row).
Proof.
  intros Hrows Hk Hlast. simpl. rewrite Hrows, fmap_app, fmap_cons.
  apply build_index_last.
  - by rewrite company_record_corporate_number.
  - intros d [row' [-> Hrow']]%list_elem_of_fmap.
    rewrite company_record_corporate_number. by apply Hlast.
Qed.

Lemma recruit_records_app rs1 rs2 :
  recruit_records (rs1 ++ rs2) = recruit_records rs1 ++ recruit_records rs2.
Proof. unfold recruit_records. by rewrite fmap_app, filter_app. Qed.

(** The same for the recruit file and its identifiers. *)
Lemma published_recruit_last w cf rf l1 row l2 k :
  rows rf = l1 ++ row :: l2 →
  get (py "media_internal_id") (_normalize_row row) = Some k →
  (∀ row', row' ∈ l2 →
     get (py "media_internal_id") (_normalize_row row') ≠ Some k) →
  recruit_cache (published w cf rf) !! k = Some (_normalize_row row).
Proof.
  intros Hrows Hk Hlast. simpl.
  rewrite Hrows, recruit_records_app, recruit_records_cons.
  rewrite normalize_row_key, Hk.
  apply build_index_last.
  - by rewrite normalize_row_key.
  - intros d [_ [row' [-> Hrow']]%list_elem_of_fmap]%recruit_records_elem.
    rewrite normalize_row_key. by apply Hlast.
Qed.

(** C9. When several rows share a key, the index holds the last of them
    in file order, which is what [get_company] and [get_recruitment]
    return, while the ordered lists keep every company row and every
    keyed recruit row; an index is never larger than its list and can be
    strictly smaller. *)
Theorem index_holds_last_duplicate :
  (∀ force w st st' cf rf,
     load_cache_from_csv force w st = (Return (), st') →
     rebuilds force w st = true →
     company_csv w = Some cf → recruit_csv w = Some rf →
     (∀ l1 row l2 k w',
        rows cf = l1 ++ row :: l2 →
        get (py "corporate_number") (_normalize_row row) = Some k →
        (∀ row', row' ∈ l2 →
           get (py "corporate_number") (_normalize_row row') ≠ Some k) →
        get_company k w' st' = (Return (company_record row), st'))
     ∧ (∀ l1 row l2 k w',
          rows rf = l1 ++ row :: l2 →
          get (py "media_internal_id") (_normalize_row row) = Some k →
          (∀ row', row' ∈ l2 →
             get (py "media_internal_id") (_normalize_row row') ≠ Some k) →
          ∃ comp, get_recruitment k w' st'
                  = (Return {| recruitment := _normalize_row row;
                               company := comp |}, st'))
     ∧ all_companies st' = company_record <$> rows cf
     ∧ all_recruits st'
       = filter (λ d, is_Some (key_of (py "media_internal_id") d))
                (_normalize_row <$> rows rf)
     ∧ (size (company_cache st') ≤ length (all_companies st'))%nat
     ∧ (size (recruit_cache st') ≤ length (all_recruits st'))%nat)
  ∧ (∃ st, reachable st
           ∧ (size (company_cache st) < length (all_companies st))%nat
           ∧ (size (recruit_cache st) < length (all_recruits st))%nat).
Proof.
  split.
  - intros force w st st' cf rf Hl Hr Hc Hrf.
    destruct (load_rebuilt force w st st' Hl Hr)
      as (cf' & rf' & Hc' & Hrf' & _ & _ & ->).
    rewrite Hc in Hc'. injection Hc' as <-.
    rewrite Hrf in Hrf'. injection Hrf' as <-.
    split; [|split; [|split; [|split; [|split]]]].
    + intros l1 row l2 k w' Hrows Hk Hlast.
      rewrite get_company_outcome, ensure_loaded by done.
      unfold answer, found_company.
      by rewrite (published_company_last w cf rf l1 row l2 k).
    + intros l1 row l2 k w' Hrows Hk Hlast.
      rewrite get_recruitment_outcome, ensure_loaded by done.
      unfold answer, found_recruitment.
      rewrite (published_recruit_last w cf rf l1 row l2 k) by done.
      eauto.
    + done.
    + done.
    + etrans; [apply build_index_size|].
      simpl. by rewrite map_size_empty.
    + etrans; [apply build_index_size|].
      simpl. by rewrite map_size_empty.
  - exists sample_cache. split; [apply sample_cache_reachable|].
    split; vm_compute; lia.
Qed.

Lemma index_holds_last_duplicate_witness :
  get_company acme_number later_world sample_cache
  = (Return (company_record acme_row_again), sample_cache)
  ∧ (size (company_cache sample_cache)
     < length (all_companies sample_cache))%nat.
Proof.
  destruct index_holds_last_duplicate as [Hlast _].
  destruct (Hlast false sample_world initial_cache sample_cache
              sample_companies sample_recruits eq_refl eq_refl eq_refl eq_refl)
    as (Hcompany & _ & _ & _ & _ & _).
  split.
  - apply (Hcompany [acme_row; unkeyed_company_row] acme_row_again []).
    + reflexivity.
    + reflexivity.
    + intros row' Hrow'. by apply elem_of_nil in Hrow'.
  - vm_compute. lia.
Defined.

(** C4, as stated, fails: [job_row] has a non-empty [media_internal_id]
    and is in the served list, yet no identifier makes [get_recruitment]
    return it, because a later row of the file carries the same
    identifier. *)
Lemma earlier_recruit_row_counterexample :
  job_row ∈ rows sample_recruits
  ∧ get (py "media_internal_id") (_normalize_row job_row) = Some (py "job-1")
  ∧ get_all_recruitments sample_world sample_cache
    = (Return [_normalize_row job_row; _normalize_row job_row_again],
       sample_cache)
  ∧ ∀ k r, (get_recruitment k sample_world sample_cache).1 = Return r →
           recruitment r ≠ _normalize_row job_row.
Proof.
  split; [apply list_elem_of_here|]. split; [reflexivity|].
  split; [reflexivity|].
  intros k r. rewrite get_recruitment_outcome, ensure_loaded by reflexivity.
  rewrite answer_return. cbn [fst]. unfold found_recruitment.
  destruct (recruit_cache sample_cache !! k) as [d|] eqn:Hd; [|done].
  intros [= <-]. cbn [recruitment]. intros ->.
  pose proof (reachable_inv _ sample_cache_reachable) as Hinv.
  destruct (inv_recruit_key _ Hinv k _ Hd) as [Hk _].
  vm_compute in Hk. injection Hk as <-.
  by vm_compute in Hd.
Qed.

(** C4, amended. After a load, a row of the recruit file is in the list
    [get_all_recruitments] serves if and only if its [media_internal_id]
    is non-null after normalization; that identifier is then a non-empty
    key for which [get_recruitment] returns a record of the list with that
    identifier, and it returns the row itself when no later row carries
    the same identifier. A row whose [media_internal_id] is absent or
    empty after trimming is in neither the list nor the index. *)
Theorem recruit_row_kept_iff_keyed
    (force : bool) (w w' : world) (st st' : cache) (rf : csv_file)
    (row : csv_row) :
  load_cache_from_csv force w st = (Return (), st') →
  rebuilds force w st = true →
  recruit_csv w = Some rf →
  row ∈ rows rf →
  let d := _normalize_row row in
  get_all_recruitments w' st' = (Return (all_recruits st'), st')
  ∧ (d ∈ all_recruits st' ↔ is_Some (get (py "media_internal_id") d))
  ∧ (∀ k, get (py "media_internal_id") d = Some k →
       k ≠ []
       ∧ ∃ d' comp,
           get_recruitment k w' st'
           = (Return {| recruitment := d'; company := comp |}, st')
           ∧ d' ∈ all_recruits st'
           ∧ get (py "media_internal_id") d' = Some k)
  ∧ (∀ l1 l2 k,
       rows rf = l1 ++ row :: l2 →
       get (py "media_internal_id") d = Some k →
       (∀ row', row' ∈ l2 →
          get (py "media_internal_id") (_normalize_row row') ≠ Some k) →
       ∃ comp, get_recruitment k w' st'
               = (Return {| recruitment := d; company := comp |}, st'))
  ∧ (get (py "media_internal_id") d = None →
       (d ∉ all_recruits st')
       ∧ ∀ k, recruit_cache st' !! k ≠ Some d).
Proof.
  intros Hl Hr Hrf Hrow d.
  destruct (load_rebuilt force w st st' Hl Hr)
    as (cf & rf' & _ & Hrf' & _ & _ & ->).
  rewrite Hrf in Hrf'. injection Hrf' as <-.
  pose proof (published_inv w cf rf) as Hinv.
  assert (d ∈ all_recruits (published w cf rf)
          ↔ is_Some (get (py "media_internal_id") d)) as Hlist.
  { simpl. rewrite recruit_records_elem. unfold d at 1.
    rewrite normalize_row_key. split; [by intros [? _]|].
    intros Hk. split; [done|]. by apply list_elem_of_fmap_2. }
  split; [|split; [|split; [|split]]].
  - by rewrite get_all_recruitments_outcome, ensure_loaded.
  - done.
  - intros k Hk.
    assert (key_of (py "media_internal_id") d = Some k) as Hkey.
    { unfold d. by rewrite normalize_row_key. }
    split; [by apply key_of_nonempty in Hkey as [? _]|].
    assert (d ∈ all_recruits (published w cf rf)) as Hd.
    { apply Hlist. rewrite Hk. eauto. }
    assert (is_Some (recruit_cache (published w cf rf) !! k)) as [d' Hd']
      by by apply (build_index_dom _ _ _ d).
    destruct (inv_recruit_key _ Hinv k d' Hd') as [Hk' Hin'].
    exists d'. eexists.
    rewrite get_recruitment_outcome, ensure_loaded by done.
    unfold answer, found_recruitment. rewrite Hd'.
    split; [done|]. split; [done|].
    by apply key_of_nonempty in Hk' as [_ ?].
  - intros l1 l2 k Hrows Hk Hlast.
    rewrite get_recruitment_outcome, ensure_loaded by done.
    unfold answer, found_recruitment.
    rewrite (published_recruit_last w cf rf l1 row l2 k) by done.
    eauto.
  - intros Hnone. split.
    + rewrite Hlist, Hnone. by intros [? ?].
    + intros k Hk. destruct (inv_recruit_key _ Hinv k d Hk) as [_ Hin].
      apply Hlist in Hin. rewrite Hnone in Hin. by destruct Hin.
Qed.

Lemma recruit_row_kept_iff_keyed_witness :
  unkeyed_job_row ∈ rows sample_recruits
  ∧ get (py "media_internal_id") (_normalize_row unkeyed_job_row) = None
  ∧ (_normalize_row unkeyed_job_row ∉ all_recruits sample_cache)
  ∧ ∀ k, recruit_cache sample_cache !! k
         ≠ Some (_normalize_row unkeyed_job_row).
Proof.
  assert (unkeyed_job_row ∈ rows sample_recruits) as Hrow.
  { apply list_elem_of_further, list_elem_of_here. }
  split; [exact Hrow|]. split; [reflexivity|].
  destruct (recruit_row_kept_iff_keyed false sample_world sample_world
              initial_cache sample_cache sample_recruits unkeyed_job_row
              eq_refl eq_refl eq_refl Hrow)
    as (_ & _ & _ & _ & Hnowhere).
  apply Hnowhere. reflexivity.
Defined.

(** C5, as stated, fails: [acme_row] is a row of the company file with a
    non-empty [corporate_number], yet [get_company] on that number
    returns the record of a later row with the same number, whose
    fields differ. *)
Lemma earlier_company_row_counterexample :
  acme_row ∈ rows sample_companies
  ∧ get (py "corporate_number") (_normalize_row acme_row) = Some acme_number
  ∧ get_company acme_number sample_world sample_cache
    = (Return (company_record acme_row_again), sample_cache)
  ∧ get (py "name") (company_record acme_row_again)
    ≠ get (py "name") (company_record acme_row).
Proof.
  split; [apply list_elem_of_here|]. split; [reflexivity|].
  split; [reflexivity|]. by vm_compute.
Qed.

(** C5, amended. After a load, for a row of the company file whose
    [corporate_number] is non-null after normalization, [get_company] on
    that normalized number returns the record of the last row of the file
    with that number, hence of the row itself when no later row carries
    it; a stored record holds the fields of its normalized row except
    [quality] and [updated_at]. [get_company] answers by exact match on
    the index and raises the 404 when the key is absent. *)
Theorem get_company_returns_last_keyed_row
    (force : bool) (w w' : world) (st st' : cache) (cf : csv_file) :
  load_cache_from_csv force w st = (Return (), st') →
  rebuilds force w st = true →
  company_csv w = Some cf →
  (∀ l1 row l2 k,
     rows cf = l1 ++ row :: l2 →
     get (py "corporate_number") (_normalize_row row) = Some k →
     (∀ row', row' ∈ l2 →
        get (py "corporate_number") (_normalize_row row') ≠ Some k) →
     get_company k w' st' = (Return (company_record row), st'))
  ∧ (∀ row k,
       row ∈ rows cf →
       get (py "corporate_number") (_normalize_row row) = Some k →
       k ≠ []
       ∧ ∃ row', row' ∈ rows cf
                 ∧ get (py "corporate_number") (_normalize_row row') = Some k
                 ∧ get_company k w' st' = (Return (company_record row'), st'))
  ∧ (∀ row f,
       dict_get f (company_record row) =
       if decide (f = py "quality" ∨ f = py "updated_at") then None
       else dict_get f (_normalize_row row))
  ∧ (∀ k, get_company k w' st' = (found_company k st', st'))
  ∧ (∀ k, company_cache st' !! k = None →
          get_company k w' st'
          = (Raise (HTTPException 404 detail_company_404), st')).
Proof.
  intros Hl Hr Hc.
  destruct (load_rebuilt force w st st' Hl Hr)
    as (cf' & rf & Hc' & _ & _ & _ & ->).
  rewrite Hc in Hc'. injection Hc' as <-.
  pose proof (published_inv w cf rf) as Hinv.
  assert (∀ k, get_company k w' (published w cf rf)
               = (found_company k (published w cf rf), published w cf rf))
    as Hget.
  { intros k. by rewrite get_company_outcome, ensure_loaded. }
  split; [|split; [|split; [|split]]].
  - intros l1 row l2 k Hrows Hk Hlast. rewrite Hget. unfold found_company.
    by rewrite (published_company_last w cf rf l1 row l2 k).
  - intros row k Hrow Hk.
    assert (key_of (py "corporate_number") (company_record row) = Some k)
      as Hkey by by rewrite company_record_corporate_number.
    split; [by apply key_of_nonempty in Hkey as [? _]|].
    assert (company_record row ∈ company_record <$> rows cf) as Hin
      by by apply list_elem_of_fmap_2.
    assert (is_Some (company_cache (published w cf rf) !! k)) as [d' Hd']
      by by apply (build_index_dom _ _ _ (company_record row)).
    destruct (inv_company_key _ Hinv k d' Hd') as [Hk' Hin'].
    apply list_elem_of_fmap in Hin' as [row' [-> Hrow']].
    exists row'. split; [done|].
    rewrite company_record_corporate_number in Hk'. split; [done|].
    rewrite Hget. unfold found_company. by rewrite Hd'.
  - intros row f. rewrite company_record_get.
    destruct (decide (f = py "updated_at")) as [Hu|Hu];
      destruct (decide (f = py "quality")) as [Hq|Hq];
      case_decide as Hd; first [done|tauto].
  - done.
  - intros k Hk. rewrite Hget. unfold found_company. by rewrite Hk.
Qed.

Lemma get_company_returns_last_keyed_row_witness :
  get_company acme_number later_world sample_cache
  = (Return (company_record acme_row_again), sample_cache)
  ∧ dict_get (py "quality") (company_record acme_row_again) = None.
Proof.
  destruct (get_company_returns_last_keyed_row false sample_world later_world
              initial_cache sample_cache sample_companies
              eq_refl eq_refl eq_refl)
    as (Hlast & _ & Hfields & _ & _).
  split.
  - apply (Hlast [acme_row; unkeyed_company_row] acme_row_again []).
    + reflexivity.
    + reflexivity.
    + intros row' Hrow'. by apply elem_of_nil in Hrow'.
  - rewrite Hfields. reflexivity.
Defined.

(** * Further properties of the code *)

(** ** Trimming and null values *)

Lemma lstrip_nil_iff s : lstrip s = [] ↔ forallb isspace s = true.
Proof.
  induction s as [|a s IH]; simpl; [done|].
  destruct (isspace a); simpl; [done|]. split; discriminate.
Qed.

Lemma forallb_reverse (f : N → bool) s :
  forallb f (reverse s) = true ↔ forallb f s = true.
Proof.
  rewrite !forallb_forall. split; intros Hall c Hc; apply Hall;
    rewrite <- list_elem_of_In in Hc |- *; by apply elem_of_reverse.
Qed.

Lemma reverse_nil_iff (s : pystr) : reverse s = [] ↔ s = [].
Proof.
  split; [|by intros ->].
  intros Hs. by rewrite <- (reverse_involutive s), Hs.
Qed.

(** A string strips to nothing exactly when it is all white space. *)
Lemma strip_nil_iff s : strip s = [] ↔ forallb isspace s = true.
Proof.
  unfold strip, rstrip.
  rewrite reverse_nil_iff, lstrip_nil_iff, forallb_reverse.
  rewrite <- lstrip_nil_iff, lstrip_lstrip. apply lstrip_nil_iff.
Qed.

Lemma lstrip_id s :
  (∀ c, head s = Some c → isspace c = false) → lstrip s = s.
Proof.
  destruct s as [|a s]; simpl; [done|].
  intros Hh. by rewrite (Hh a).
Qed.

Lemma rstrip_id s :
  (∀ c, last s = Some c → isspace c = false) → rstrip s = s.
Proof.
  intros Hl. unfold rstrip. rewrite lstrip_id.
  - apply reverse_involutive.
  - intros c. rewrite head_reverse. apply Hl.
Qed.

(** X3. [_normalize_row] stores null for a cell exactly when the cell is
    [None] or holds nothing but white space (the empty string
    included). *)
Theorem normalize_value_null_iff_blank (v : option pystr) :
  normalize_value v = None
  ↔ v = None ∨ ∃ s, v = Some s ∧ forallb isspace s = true.
Proof.
  destruct v as [s|]; simpl.
  - destruct (decide (strip s = [])) as [He|Hne].
    + split; [|done]. intros _. right. exists s.
      split; [done|]. by apply strip_nil_iff.
    + split; [done|]. intros [?|(s' & [= <-] & Hs)]; [done|].
      by apply strip_nil_iff in Hs.
  - split; [by left|done].
Qed.

(** X4. A cell is stored unchanged exactly when it is non-empty and
    neither starts nor ends with white space: white space inside a value
    is kept. *)
Theorem normalize_value_keeps_trimmed (s : pystr) :
  normalize_value (Some s) = Some s
  ↔ s ≠ []
    ∧ (∀ c, head s = Some c → isspace c = false)
    ∧ (∀ c, last s = Some c → isspace c = false).
Proof.
  simpl. split.
  - destruct (decide (strip s = [])) as [He|Hne]; [done|].
    intros [= Hs]. destruct (strip_spec s) as (_ & _ & _ & _ & _ & Hh & Hl).
    rewrite Hs in Hne, Hh, Hl. done.
  - intros (Hne & Hh & Hl).
    assert (strip s = s) as ->.
    { unfold strip. rewrite (lstrip_id s Hh). by apply rstrip_id. }
    by destruct (decide (s = [])).
Qed.

Lemma normalize_value_keeps_trimmed_witness :
  normalize_value (Some (py "Acme Holdings")) = Some (py "Acme Holdings").
Proof.
  apply normalize_value_keeps_trimmed.
  split; [by vm_compute|]. split; intros c [= <-]; reflexivity.
Defined.

(** ** The shape of a normalized row *)

Lemma keys_dict_set {V} k (v : V) d :
  keys (dict_set k v d)
  = if decide (k ∈ keys d) then keys d else keys d ++ [k].
Proof.
  case_decide as Hk.
  - by apply keys_dict_set_in.
  - rewrite dict_set_fresh by done. unfold keys. by rewrite fmap_app.
Qed.

Lemma elem_of_first_occurrences k l : k ∈ first_occurrences l ↔ k ∈ l.
Proof.
  unfold first_occurrences.
  by rewrite elem_of_reverse, elem_of_remove_dups, elem_of_reverse.
Qed.

Lemma first_occurrences_snoc l k :
  first_occurrences (l ++ [k])
  = if decide (k ∈ l) then first_occurrences l else first_occurrences l ++ [k].
Proof.
  unfold first_occurrences. rewrite reverse_snoc. cbn [remove_dups].
  destruct (decide_rel elem_of k (reverse l)) as [Hin|Hnin];
    case_decide as Hk; try done.
  - destruct Hk. by apply elem_of_reverse.
  - destruct Hnin. by apply elem_of_reverse.
  - by rewrite reverse_cons.
Qed.

Lemma elem_of_named_cells row k v :
  (k, v) ∈ named_cells row ↔ Field k v ∈ row.
Proof.
  unfold named_cells. rewrite list_elem_of_omap. split.
  - intros ([k' v'|extra] & Hin & Hc); [|done]. by injection Hc as -> ->.
  - intros Hin. by exists (Field k v).
Qed.

Lemma normalize_row_snoc row c :
  _normalize_row (row ++ [c]) = normalize_step (_normalize_row row) c.
Proof. unfold _normalize_row. by rewrite fold_left_app. Qed.

(** X1. The fields of a normalized row are the trimmed names of the
    named cells of the row, each once, in the order in which they first
    occur; the surplus cells of a long line (the [None] key) add
    nothing. *)
Theorem normalize_row_keys (row : csv_row) :
  keys (_normalize_row row)
  = first_occurrences ((λ kv, strip kv.1) <$> named_cells row).
Proof.
  induction row as [|c row IH] using rev_ind; [done|].
  rewrite normalize_row_snoc. unfold named_cells in *. rewrite omap_app.
  destruct c as [k v|extra]; simpl.
  - rewrite fmap_app, keys_dict_set. simpl.
    rewrite first_occurrences_snoc, <- IH.
    destruct (decide (strip k ∈ keys (_normalize_row row))) as [Hin|Hnin];
      case_decide as Hk; try done.
    + destruct Hk. by rewrite IH, elem_of_first_occurrences in Hin.
    + destruct Hnin. by rewrite IH, elem_of_first_occurrences.
  - by rewrite app_nil_r.
Qed.

Lemma elem_of_keys_dict_set {V} k k' (v : V) d :
  k' ∈ keys (dict_set k v d) ↔ k' = k ∨ k' ∈ keys d.
Proof.
  rewrite keys_dict_set. case_decide as Hk.
  - split; [by right|]. by intros [->|?].
  - rewrite elem_of_app, list_elem_of_singleton. tauto.
Qed.

(** The names absent from a normalized row. *)
Lemma normalize_row_absent row k :
  k ∉ keys (_normalize_row row)
  ↔ ∀ k0 v0, Field k0 v0 ∈ row → strip k0 ≠ k.
Proof.
  induction row as [|c row IH] using rev_ind.
  - split; [|intros _; apply not_elem_of_nil].
    by intros _ k0 v0 ?%elem_of_nil.
  - rewrite normalize_row_snoc. destruct c as [k1 v1|extra]; simpl.
    + rewrite elem_of_keys_dict_set. split.
      * intros Hno k0 v0 [Hin|Hin%list_elem_of_singleton]%elem_of_app.
        -- apply (proj1 IH) with v0; [tauto|done].
        -- injection Hin as -> ->. intros Hk. apply Hno. by left.
      * intros Hno [->|Hin].
        -- apply (Hno k1 v1); [|done].
           apply elem_of_app. right. apply list_elem_of_here.
        -- revert Hin. apply (proj2 IH). intros k0 v0 Hin. apply (Hno k0 v0).
           apply elem_of_app. by left.
    + rewrite IH. split; intros Hno k0 v0 Hin.
      * apply elem_of_app in Hin as [Hin|Hin%list_elem_of_singleton];
          [by apply (Hno k0 v0)|done].
      * apply (Hno k0 v0), elem_of_app. by left.
Qed.

(** X2. A name is missing from a normalized row exactly when no named
    cell of the row trims to it; in particular a name with white space
    around it is never a field, and [get] answers [None] for it. *)
Theorem normalize_row_missing_key (row : csv_row) (k : pystr) :
  (dict_get k (_normalize_row row) = None
   ↔ ∀ k0 v0, Field k0 v0 ∈ row → strip k0 ≠ k)
  ∧ (strip k ≠ k →
     dict_get k (_normalize_row row) = None
     ∧ get k (_normalize_row row) = None).
Proof.
  split; [by rewrite dict_get_None, normalize_row_absent|].
  intros Hk.
  assert (dict_get k (_normalize_row row) = None) as Hget.
  { apply dict_get_None, normalize_row_absent.
    intros k0 v0 _ <-. apply Hk, strip_strip. }
  split; [done|]. unfold get. by rewrite Hget.
Qed.

Lemma normalize_row_missing_key_witness :
  get (py " name") (_normalize_row acme_row) = None
  ∧ get (py "name") (_normalize_row acme_row) = Some (py "Acme").
Proof.
  split; [|reflexivity].
  apply (normalize_row_missing_key acme_row (py " name")).
  by vm_compute.
Defined.

Lemma dict_pop_absent {V} k (d : dict V) : k ∉ keys d → dict_pop k d = d.
Proof.
  induction d as [|[k0 v0] d IH]; simpl; [done|].
  intros [Hne Hk]%not_elem_of_cons.
  destruct (decide (k = k0)); [done|]. by rewrite IH.
Qed.

Lemma keys_dict_pop {V} k (d : dict V) :
  NoDup (keys d) → keys (dict_pop k d) = filter (λ k', k' ≠ k) (keys d).
Proof.
  induction d as [|[k0 v0] d IH]; simpl; [done|].
  intros [Hk0 Hd]%NoDup_cons. rewrite filter_cons. simpl.
  destruct (decide (k = k0)) as [->|Hne].
  - destruct (decide (k0 ≠ k0)) as [?|_]; [done|].
    rewrite <- IH by done. by rewrite dict_pop_absent.
  - destruct (decide (k0 ≠ k)) as [_|Heq]; [|by destruct Heq].
    simpl. by rewrite IH.
Qed.

(** X5. The record stored for a company row keeps the fields of the
    normalized row other than [quality] and [updated_at], in their order;
    a row with no column that trims to one of these two names is stored
    as normalized, untouched. *)
Theorem company_record_fields (row : csv_row) :
  keys (company_record row)
  = filter (λ k, k ≠ py "quality" ∧ k ≠ py "updated_at")
           (keys (_normalize_row row))
  ∧ ((∀ k0 v0, Field k0 v0 ∈ row →
        strip k0 ≠ py "quality" ∧ strip k0 ≠ py "updated_at") →
     company_record row = _normalize_row row).
Proof.
  pose proof (normalize_row_normalized row) as [Hnd _]. split.
  - unfold company_record.
    rewrite keys_dict_pop by by apply NoDup_keys_dict_pop.
    rewrite keys_dict_pop by done. rewrite list_filter_filter.
    apply list_filter_iff. intros k. tauto.
  - intros Hno. unfold company_record.
    rewrite (dict_pop_absent (py "quality")).
    + apply dict_pop_absent, normalize_row_absent. intros k0 v0 Hin.
      by apply (Hno k0 v0).
    + apply normalize_row_absent. intros k0 v0 Hin. by apply (Hno k0 v0).
Qed.

Lemma company_record_fields_witness :
  company_record acme_row_renamed = _normalize_row acme_row_renamed.
Proof.
  apply company_record_fields.
  intros k0 v0 Hin. unfold acme_row_renamed in Hin.
  apply elem_of_cons in Hin as [[= -> ->]|Hin]; [split; by vm_compute|].
  apply elem_of_cons in Hin as [[= -> ->]|Hin]; [split; by vm_compute|].
  by apply elem_of_nil in Hin.
Defined.

(** ** The states of the cache *)

Lemma load_state_strong force w st :
  (load_cache_from_csv force w st).2 = st ∨
  ∃ cf rf, company_csv w = Some cf ∧ recruit_csv w = Some rf
           ∧ fault cf = None ∧ fault rf = None
           ∧ load_cache_from_csv force w st = (Return (), published w cf rf).
Proof.
  rewrite load_outcome.
  destruct (company_csv w) as [cf|]; [|by left].
  destruct (recruit_csv w) as [rf|]; [|by left].
  destruct (rebuilds force w st); [|by left].
  destruct (fault cf) eqn:Hcf; [by left|].
  destruct (fault rf) eqn:Hrf; [by left|].
  right. by exists cf, rf.
Qed.

Lemma load_forced_good w st cf rf :
  company_csv w = Some cf → recruit_csv w = Some rf →
  fault cf = None → fault rf = None →
  load_cache_from_csv true w st = (Return (), published w cf rf).
Proof.
  intros Hc Hr Hcf Hrf.
  by rewrite load_outcome, Hc, Hr, rebuilds_forced, Hcf, Hrf.
Qed.

Lemma answer_state {A} r (f : cache → outcome A) : (answer r f).2 = r.2.
Proof. by destruct r as [[[]|e] st]. Qed.

(** The globals after a request: a query leaves what
    [ensure_cache_loaded] leaves, the reload what the forced load
    leaves. *)
Lemma after_eq r w st :
  after r w st =
  match r with
  | ReloadCache => (load_cache_from_csv true w st).2
  | _ => (ensure_cache_loaded w st).2
  end.
Proof.
  destruct r; simpl;
    rewrite ?get_company_outcome, ?get_recruitment_outcome,
      ?get_all_recruitments_outcome, ?root_outcome, ?check_data_outcome,
      ?health_check_outcome, ?reload_cache_outcome, ?answer_state; try done.
  - by destruct (ensure_cache_loaded w st) as [[[]|e] st'].
  - by destruct (load_cache_from_csv true w st) as [[[]|e] st'].
Qed.


Lemma reachable_iff_snapshot_aux st :
  reachable st →
  st = initial_cache ∨ ∃ w cf rf, st = published w cf rf.
Proof.
  induction 1 as [|r w st _ IH]; [by left|].
  destruct (after_state r w st) as [->|[force ->]]; [done|].
  destruct (load_state_strong force w st)
    as [->|(cf & rf & _ & _ & _ & _ & ->)]; [done|].
  right. by exists w, cf, rf.
Qed.

(** X6. The states a process can be in are exactly the initial globals
    and the snapshots published from one environment whose two files
    exist and read without error: both indexes, both lists, the version
    token and the load time always come from the same load. *)
Theorem reachable_iff_snapshot (st : cache) :
  reachable st
  ↔ st = initial_cache
    ∨ ∃ w cf rf, company_csv w = Some cf ∧ recruit_csv w = Some rf
                 ∧ fault cf = None ∧ fault rf = None
                 ∧ st = published w cf rf.
Proof.
  split.
  - induction 1 as [|r w st _ IH]; [by left|].
    destruct (after_state r w st) as [->|[force ->]]; [done|].
    destruct (load_state_strong force w st)
      as [->|(cf & rf & Hc & Hr & Hcf & Hrf & ->)]; [done|].
    right. by exists w, cf, rf.
  - intros [->|(w & cf & rf & Hc & Hr & Hcf & Hrf & ->)];
      [apply reachable_initial|].
    assert (published w cf rf = after ReloadCache w initial_cache) as ->.
    { by rewrite after_eq, (load_forced_good w _ cf rf). }
    apply reachable_after, reachable_initial.
Qed.

Lemma reachable_iff_snapshot_witness :
  reachable (published later_world
               {| st_mtime := 300; rows := [acme_row_renamed]; fault := None |}
               sample_recruits).
Proof.
  apply reachable_iff_snapshot. right. eexists later_world, _, _.
  repeat split; reflexivity.
Defined.




(** ** What the indexes hold *)

Lemma published_company_dom w cf rf k :
  is_Some (company_cache (published w cf rf) !! k)
  ↔ ∃ row, row ∈ rows cf
           ∧ get (py "corporate_number") (_normalize_row row) = Some k.
Proof.
  simpl. split.
  - intros [d [Hd|[Hin Hk]]%build_index_Some];
      [by rewrite lookup_empty in Hd|].
    apply list_elem_of_fmap in Hin as [row [-> Hrow]].
    exists row. by rewrite <- company_record_corporate_number.
  - intros (row & Hrow & Hk).
    apply (build_index_dom _ _ _ (company_record row)).
    + by apply list_elem_of_fmap_2.
    + by rewrite company_record_corporate_number.
Qed.

Lemma published_recruit_dom w cf rf k :
  is_Some (recruit_cache (published w cf rf) !! k)
  ↔ ∃ row, row ∈ rows rf
           ∧ get (py "media_internal_id") (_normalize_row row) = Some k.
Proof.
  simpl. split.
  - intros [d [Hd|[Hin Hk]]%build_index_Some];
      [by rewrite lookup_empty in Hd|].
    apply recruit_records_elem in Hin as [_ [row [-> Hrow]]%list_elem_of_fmap].
    exists row. by rewrite <- normalize_row_key.
  - intros (row & Hrow & Hk).
    apply (build_index_dom _ _ _ (_normalize_row row)).
    + apply recruit_records_elem. rewrite normalize_row_key, Hk.
      split; [eauto|]. by apply list_elem_of_fmap_2.
    + by rewrite normalize_row_key.
Qed.

Lemma normalize_row_get_nonempty f row : get f (_normalize_row row) ≠ Some [].
Proof.
  rewrite <- normalize_row_key. intros [Hne _]%key_of_nonempty. done.
Qed.

(** X8. After a load, [get_company] raises its 404 exactly when no row
    of the company file has that [corporate_number] after normalization,
    and [get_recruitment] exactly when no row of the recruit file has
    that [media_internal_id]; the empty key is always a 404. *)
Theorem lookup_404_iff_no_row
    (force : bool) (w w' : world) (st st' : cache) (cf rf : csv_file)
    (k : pystr) :
  load_cache_from_csv force w st = (Return (), st') →
  rebuilds force w st = true →
  company_csv w = Some cf → recruit_csv w = Some rf →
  (get_company k w' st'
   = (Raise (HTTPException 404 detail_company_404), st')
   ↔ ∀ row, row ∈ rows cf →
            get (py "corporate_number") (_normalize_row row) ≠ Some k)
  ∧ (get_recruitment k w' st'
     = (Raise (HTTPException 404 detail_recruitment_404), st')
     ↔ ∀ row, row ∈ rows rf →
              get (py "media_internal_id") (_normalize_row row) ≠ Some k)
  ∧ get_company [] w' st'
    = (Raise (HTTPException 404 detail_company_404), st')
  ∧ get_recruitment [] w' st'
    = (Raise (HTTPException 404 detail_recruitment_404), st').
Proof.
  intros Hl Hr Hc Hrf.
  destruct (load_rebuilt force w st st' Hl Hr)
    as (cf' & rf' & Hc' & Hrf' & _ & _ & ->).
  rewrite Hc in Hc'. injection Hc' as <-.
  rewrite Hrf in Hrf'. injection Hrf' as <-.
  assert (∀ k, get_company k w' (published w cf rf)
               = (Raise (HTTPException 404 detail_company_404),
                  published w cf rf)
               ↔ ∀ row, row ∈ rows cf →
                   get (py "corporate_number") (_normalize_row row) ≠ Some k)
    as Hcompany.
  { intros k0. rewrite get_company_outcome, ensure_loaded by done.
    rewrite answer_return. unfold found_company.
    pose proof (published_company_dom w cf rf k0) as Hdom.
    destruct (company_cache (published w cf rf) !! k0) as [d|].
    - split; [done|]. intros Hno.
      destruct (proj1 Hdom) as (row & Hrow & Hk); [eauto|].
      by destruct (Hno row Hrow).
    - split; [|done]. intros _ row Hrow Hk.
      destruct (proj2 Hdom) as [? ?]; [eauto|done]. }
  assert (∀ k, get_recruitment k w' (published w cf rf)
               = (Raise (HTTPException 404 detail_recruitment_404),
                  published w cf rf)
               ↔ ∀ row, row ∈ rows rf →
                   get (py "media_internal_id") (_normalize_row row) ≠ Some k)
    as Hrecruit.
  { intros k0. rewrite get_recruitment_outcome, ensure_loaded by done.
    rewrite answer_return. unfold found_recruitment.
    pose proof (published_recruit_dom w cf rf k0) as Hdom.
    destruct (recruit_cache (published w cf rf) !! k0) as [d|].
    - split; [done|]. intros Hno.
      destruct (proj1 Hdom) as (row & Hrow & Hk); [eauto|].
      by destruct (Hno row Hrow).
    - split; [|done]. intros _ row Hrow Hk.
      destruct (proj2 Hdom) as [? ?]; [eauto|done]. }
  split; [apply Hcompany|]. split; [apply Hrecruit|]. split.
  - apply Hcompany. intros row _. apply normalize_row_get_nonempty.
  - apply Hrecruit. intros row _. apply normalize_row_get_nonempty.
Qed.

Lemma lookup_404_iff_no_row_witness :
  get_company [] later_world sample_cache
  = (Raise (HTTPException 404 detail_company_404), sample_cache)
  ∧ get_recruitment [] later_world sample_cache
    = (Raise (HTTPException 404 detail_recruitment_404), sample_cache).
Proof.
  destruct (lookup_404_iff_no_row false sample_world later_world
              initial_cache sample_cache sample_companies sample_recruits []
              eq_refl eq_refl eq_refl eq_refl)
    as (_ & _ & Hcompany & Hrecruit).
  split; [exact Hcompany|exact Hrecruit].
Defined.

Lemma dom_build_index f ds idx :
  dom (build_index f ds idx) =@{gset pystr}
  list_to_set (index_keys f ds) ∪ dom idx.
Proof.
  revert idx. induction ds as [|d ds IH]; intros idx.
  - simpl. symmetry. apply (left_id_L ∅ (∪)).
  - rewrite build_index_cons, IH. unfold index_keys, index_step. simpl.
    destruct (key_of f d) as [k|]; simpl; [|done].
    rewrite dom_insert_L.
    by rewrite (assoc_L (∪)), (comm_L (∪) _ {[k]}).
Qed.

(** An index built from nothing has as many entries as its records have
    distinct keys. *)
Lemma build_index_size_distinct f ds :
  size (build_index f ds ∅) = length (remove_dups (index_keys f ds)).
Proof.
  rewrite <- size_dom, dom_build_index, dom_empty_L, (right_id_L ∅ (∪)).
  rewrite <- (size_list_to_set (C:=gset pystr)
                (remove_dups (index_keys f ds)))
    by apply NoDup_remove_dups.
  f_equal. apply set_eq. intros k.
  by rewrite !elem_of_list_to_set, elem_of_remove_dups.
Qed.

(** X9. In every state a process can be in, the counts of
    [check_data] and [health_check] are the numbers of distinct keys
    among the listed records: distinct non-empty [corporate_number]s of
    the company list and distinct [media_internal_id]s of the recruit
    list. *)
Theorem counts_are_distinct_keys (st : cache) (w : world) :
  reachable st →
  let n_companies :=
    length (remove_dups (index_keys (py "corporate_number")
                                    (all_companies st))) in
  let n_recruits :=
    length (remove_dups (index_keys (py "media_internal_id")
                                    (all_recruits st))) in
  size (company_cache st) = n_companies
  ∧ size (recruit_cache st) = n_recruits
  ∧ (_cache_loaded st = true →
     (∃ resp, check_data w st = (Return resp, st)
              ∧ company_count resp = n_companies
              ∧ recruit_count resp = n_recruits)
     ∧ (∃ resp, health_check w st = (Return resp, st)
                ∧ companies resp = n_companies
                ∧ recruitments resp = n_recruits)).
Proof.
  intros Hr. simpl.
  assert (size (company_cache st)
          = length (remove_dups (index_keys (py "corporate_number")
                                            (all_companies st)))
          ∧ size (recruit_cache st)
            = length (remove_dups (index_keys (py "media_internal_id")
                                              (all_recruits st))))
    as [Hc Hrc].
  { apply reachable_iff_snapshot_aux in Hr
      as [->|(w0 & cf & rf & ->)]; [done|].
    simpl. by rewrite !build_index_size_distinct. }
  split; [done|]. split; [done|]. intros Hl. split.
  - rewrite check_data_outcome, ensure_loaded by done.
    eexists. split; [done|]. done.
  - rewrite health_check_outcome, ensure_loaded by done.
    eexists. split; [done|]. done.
Qed.

Lemma counts_are_distinct_keys_witness :
  reachable sample_cache
  ∧ size (company_cache sample_cache) = 1%nat
  ∧ length (all_companies sample_cache) = 3%nat.
Proof.
  split; [apply sample_cache_reachable|].
  destruct (counts_are_distinct_keys sample_cache sample_world
              sample_cache_reachable) as (Hcompanies & _ & _).
  split; [|reflexivity]. rewrite Hcompanies. reflexivity.
Defined.

(** ** The join of a recruitment with its company *)

(** X10. After a load the join goes through the normalized
    [corporate_number]: for the last row of the recruit file with a given
    identifier, [get_recruitment] returns that row together with the
    record of the last row of the company file whose normalized number
    equals the row's, and with no company when no row of the company
    file has that number. *)
Theorem join_by_normalized_number
    (force : bool) (w w' : world) (st st' : cache) (cf rf : csv_file)
    (l1 l2 : list csv_row) (recruit_row : csv_row) (k corp : pystr) :
  load_cache_from_csv force w st = (Return (), st') →
  rebuilds force w st = true →
  company_csv w = Some cf → recruit_csv w = Some rf →
  rows rf = l1 ++ recruit_row :: l2 →
  get (py "media_internal_id") (_normalize_row recruit_row) = Some k →
  (∀ row', row' ∈ l2 →
     get (py "media_internal_id") (_normalize_row row') ≠ Some k) →
  get (py "corporate_number") (_normalize_row recruit_row) = Some corp →
  (∀ m1 company_row m2,
     rows cf = m1 ++ company_row :: m2 →
     get (py "corporate_number") (_normalize_row company_row) = Some corp →
     (∀ row', row' ∈ m2 →
        get (py "corporate_number") (_normalize_row row') ≠ Some corp) →
     get_recruitment k w' st'
     = (Return {| recruitment := _normalize_row recruit_row;
                  company := Some (company_record company_row) |}, st'))
  ∧ ((∀ row, row ∈ rows cf →
        get (py "corporate_number") (_normalize_row row) ≠ Some corp) →
     get_recruitment k w' st'
     = (Return {| recruitment := _normalize_row recruit_row;
                  company := None |}, st')).
Proof.
  intros Hl Hr Hc Hrf Hrows Hk Hlast Hcorp.
  destruct (load_rebuilt force w st st' Hl Hr)
    as (cf' & rf' & Hc' & Hrf' & _ & _ & ->).
  rewrite Hc in Hc'. injection Hc' as <-.
  rewrite Hrf in Hrf'. injection Hrf' as <-.
  assert (get_recruitment k w' (published w cf rf)
          = (Return {| recruitment := _normalize_row recruit_row;
                       company :=
                         company_cache (published w cf rf) !! corp |},
             published w cf rf)) as ->.
  { rewrite get_recruitment_outcome, ensure_loaded by done.
    rewrite answer_return. unfold found_recruitment.
    rewrite (published_recruit_last w cf rf l1 recruit_row l2 k) by done.
    by rewrite normalize_row_key, Hcorp. }
  split.
  - intros m1 company_row m2 Hcrows Hck Hclast.
    by rewrite (published_company_last w cf rf m1 company_row m2 corp).
  - intros Hno.
    destruct (company_cache (published w cf rf) !! corp) as [d|] eqn:Hd;
      [|done].
    destruct (proj1 (published_company_dom w cf rf corp))
      as (row & Hrow & Hrk); [by rewrite Hd|].
    by destruct (Hno row Hrow).
Qed.

Lemma join_by_normalized_number_witness :
  get_recruitment (py "job-1") later_world sample_cache
  = (Return {| recruitment := _normalize_row job_row_again;
               company := None |}, sample_cache).
Proof.
  destruct (join_by_normalized_number false sample_world later_world
              initial_cache sample_cache sample_companies sample_recruits
              [job_row; unkeyed_job_row] [] job_row_again
              (py "job-1") (py "999")
              eq_refl eq_refl eq_refl eq_refl eq_refl eq_refl) as [_ Hnone].
  - intros row' Hrow'. by apply elem_of_nil in Hrow'.
  - reflexivity.
  - apply Hnone. intros row Hrow. unfold sample_companies in Hrow.
    simpl in Hrow.
    apply elem_of_cons in Hrow as [->|Hrow]; [by vm_compute|].
    apply elem_of_cons in Hrow as [->|Hrow]; [by vm_compute|].
    apply elem_of_cons in Hrow as [->|Hrow]; [by vm_compute|].
    by apply elem_of_nil in Hrow.
Defined.

Lemma ensure_return_loaded w st st' :
  ensure_cache_loaded w st = (Return (), st') → _cache_loaded st' = true.
Proof.
  rewrite ensure_outcome. destruct (_cache_loaded st) eqn:Hl.
  - by intros [= <-].
  - intros Hload.
    destruct (load_rebuilt false w st st' Hload (rebuilds_unloaded _ _ _ Hl))
      as (cf & rf & _ & _ & _ & _ & ->).
    done.
Qed.

Lemma answer_return_inv {A} r (f : cache → outcome A) a st' :
  answer r f = (Return a, st') → r = (Return (), st') ∧ f st' = Return a.
Proof.
  destruct r as [[[]|e] st0]; simpl; [|done]. by intros [= Hf <-].
Qed.

(** X11. The company [get_recruitment] puts beside a recruitment is the
    one [get_company] returns for the recruitment's [corporate_number];
    when it puts none although that number is a non-empty string,
    [get_company] on the number raises its 404. *)
Theorem recruitment_company_agrees_with_get_company
    (k : pystr) (w w' : world) (st st' : cache)
    (resp : recruitment_response) :
  get_recruitment k w st = (Return resp, st') →
  (∀ c, company resp = Some c →
        ∃ corp, get (py "corporate_number") (recruitment resp) = Some corp
                ∧ get_company corp w' st' = (Return c, st'))
  ∧ (company resp = None →
     ∀ corp, get (py "corporate_number") (recruitment resp) = Some corp →
             corp ≠ [] →
             get_company corp w' st'
             = (Raise (HTTPException 404 detail_company_404), st')).
Proof.
  rewrite get_recruitment_outcome.
  intros [Hens Hfound]%answer_return_inv.
  pose proof (ensure_return_loaded w st st' Hens) as Hloaded.
  assert (∀ corp, get_company corp w' st' = (found_company corp st', st'))
    as Hget.
  { intros corp. by rewrite get_company_outcome, ensure_loaded. }
  unfold found_recruitment in Hfound.
  destruct (recruit_cache st' !! k) as [r|]; [|done].
  injection Hfound as <-. simpl. split.
  - intros c Hc.
    destruct (key_of _ r) as [corp|] eqn:Hk; [|done].
    exists corp. split; [by apply key_of_nonempty in Hk as [_ ?]|].
    rewrite Hget. unfold found_company. by rewrite Hc.
  - intros Hnone corp Hcorp Hne.
    assert (key_of (py "corporate_number") r = Some corp) as Hk.
    { unfold key_of. rewrite Hcorp. by destruct corp. }
    rewrite Hk in Hnone. rewrite Hget. unfold found_company.
    by rewrite Hnone.
Qed.

Lemma recruitment_company_agrees_with_get_company_witness :
  get_company (py "999") later_world sample_cache
  = (Raise (HTTPException 404 detail_company_404), sample_cache).
Proof.
  destruct (recruitment_company_agrees_with_get_company (py "job-1")
              sample_world later_world sample_cache sample_cache
              {| recruitment := _normalize_row job_row_again;
                 company := None |} eq_refl) as [_ Hnone].
  apply Hnone; [reflexivity|reflexivity|by vm_compute].
Defined.

(** ** What the handlers raise *)

Lemma ensure_raise w st e st' :
  ensure_cache_loaded w st = (Raise e, st') →
  _cache_loaded st = false ∧ st' = st
  ∧ load_cache_from_csv false w st = (Raise e, st).
Proof.
  rewrite ensure_outcome. destruct (_cache_loaded st); [done|].
  intros Hl. pose proof (load_raise _ _ _ _ _ Hl) as ->. done.
Qed.

Lemma answer_raise_inv {A} r (f : cache → outcome A) e st' :
  answer r f = (Raise e, st') →
  r = (Raise e, st') ∨ (r = (Return (), st') ∧ f st' = Raise e).
Proof.
  destruct r as [[[]|e0] st0]; simpl.
  - intros [= Hf <-]. by right.
  - intros [= <- <-]. by left.
Qed.

(** What a load raises: the missing file, or the reader's error. *)
Lemma load_raise_kind force w st e st' :
  load_cache_from_csv force w st = (Raise e, st') →
  (∃ p, file_at w p = None
        ∧ e = FileNotFoundError (py "Missing " ++ path_str w p))
  ∨ (∃ p f msg, file_at w p = Some f ∧ fault f = Some msg
                ∧ e = ReaderError msg).
Proof.
  rewrite load_outcome.
  destruct (company_csv w) as [cf|] eqn:Hc.
  - destruct (recruit_csv w) as [rf|] eqn:Hr.
    + destruct (rebuilds force w st); [|done].
      destruct (fault cf) as [msg|] eqn:Hcf.
      * intros [= <- _]. right. by exists COMPANY_CSV, cf, msg.
      * destruct (fault rf) as [msg|] eqn:Hrf; [|done].
        intros [= <- _]. right. by exists RECRUIT_CSV, rf, msg.
    + intros [= <- _]. left. by exists RECRUIT_CSV.
  - intros [= <- _]. left. by exists COMPANY_CSV.
Qed.

(** X12. A lookup raises either its 404, and then the cache is loaded
    and the key is not in the index, or, on an unloaded cache only, the
    very exception of the failed load, leaving the cache as it was; the
    list and statistics handlers raise nothing else than that exception
    of a failed first load, hence nothing on a loaded cache. *)
Theorem query_exceptions
    (k : pystr) (w : world) (st st' : cache) (e : exn) :
  let load_failed :=
    _cache_loaded st = false ∧ st' = st
    ∧ load_cache_from_csv false w st = (Raise e, st) in
  (get_company k w st = (Raise e, st') →
     (e = HTTPException 404 detail_company_404
      ∧ _cache_loaded st' = true ∧ company_cache st' !! k = None)
     ∨ load_failed)
  ∧ (get_recruitment k w st = (Raise e, st') →
     (e = HTTPException 404 detail_recruitment_404
      ∧ _cache_loaded st' = true ∧ recruit_cache st' !! k = None)
     ∨ load_failed)
  ∧ (get_all_recruitments w st = (Raise e, st') → load_failed)
  ∧ (root w st = (Raise e, st') → load_failed)
  ∧ (check_data w st = (Raise e, st') → load_failed).
Proof.
  simpl. split; [|split; [|split; [|split]]].
  - rewrite get_company_outcome.
    intros [Hens|[Hens Hf]]%answer_raise_inv.
    + right. by apply ensure_raise.
    + left. apply ensure_return_loaded in Hens. unfold found_company in Hf.
      destruct (company_cache st' !! k); [done|]. by injection Hf as <-.
  - rewrite get_recruitment_outcome.
    intros [Hens|[Hens Hf]]%answer_raise_inv.
    + right. by apply ensure_raise.
    + left. apply ensure_return_loaded in Hens.
      unfold found_recruitment in Hf.
      destruct (recruit_cache st' !! k); [done|]. by injection Hf as <-.
  - rewrite get_all_recruitments_outcome.
    intros [Hens|[_ ?]]%answer_raise_inv; [by apply ensure_raise|done].
  - rewrite root_outcome.
    intros [Hens|[_ ?]]%answer_raise_inv; [by apply ensure_raise|done].
  - rewrite check_data_outcome.
    intros [Hens|[_ ?]]%answer_raise_inv; [by apply ensure_raise|done].
Qed.

Lemma query_exceptions_witness :
  get_company acme_number missing_world initial_cache
  = (Raise (FileNotFoundError (py "Missing /var/task/source/company.csv")),
     initial_cache)
  ∧ load_cache_from_csv false missing_world initial_cache
    = (Raise (FileNotFoundError (py "Missing /var/task/source/company.csv")),
       initial_cache).
Proof.
  split; [reflexivity|].
  destruct (query_exceptions acme_number missing_world initial_cache
              initial_cache
              (FileNotFoundError (py "Missing /var/task/source/company.csv")))
    as (Hcompany & _).
  destruct (Hcompany eq_refl) as [(Habs & _)|(_ & _ & Hload)];
    [discriminate Habs|exact Hload].
Defined.

(** X13. [health_check] and [reload_cache] raise nothing but an
    [HTTPException] with status 500, whose detail is the message of the
    load that failed: [Missing] and the path of a missing file, or the
    message of the reader's error; the globals are then as before. *)
Theorem wrapped_exceptions (w : world) (st st' : cache) (e : exn) :
  let detail_of_failure (msg : pystr) :=
    (∃ p, file_at w p = None ∧ msg = py "Missing " ++ path_str w p)
    ∨ (∃ p f, file_at w p = Some f ∧ fault f = Some msg) in
  (health_check w st = (Raise e, st') →
     ∃ msg, e = HTTPException 500 msg ∧ detail_of_failure msg
            ∧ st' = st ∧ _cache_loaded st = false)
  ∧ (reload_cache w st = (Raise e, st') →
     ∃ msg, e = HTTPException 500 msg ∧ detail_of_failure msg ∧ st' = st).
Proof.
  simpl.
  assert (∀ force e0 st0,
    load_cache_from_csv force w st = (Raise e0, st0) →
    (∃ p, file_at w p = None ∧ str_exn e0 = py "Missing " ++ path_str w p)
    ∨ (∃ p f, file_at w p = Some f ∧ fault f = Some (str_exn e0)))
    as Hdetail.
  { intros force e0 st0
      [(p & Hp & ->)|(p & f & msg & Hp & Hf & ->)]%load_raise_kind.
    - left. by exists p.
    - right. by exists p, f. }
  split.
  - rewrite health_check_outcome.
    destruct (ensure_cache_loaded w st) as [[[]|e0] st0] eqn:Hens; [done|].
    intros [= <- <-]. apply ensure_raise in Hens as (Hl & -> & Hload).
    exists (str_exn e0). split; [done|]. split; [by eapply Hdetail|done].
  - rewrite reload_cache_outcome.
    destruct (load_cache_from_csv true w st) as [[[]|e0] st0] eqn:Hload;
      [done|].
    intros [= <- <-]. pose proof (load_raise _ _ _ _ _ Hload) as ->.
    exists (str_exn e0). split; [done|]. split; [by eapply Hdetail|done].
Qed.

Lemma wrapped_exceptions_witness :
  reload_cache missing_world sample_cache
  = (Raise (HTTPException 500 (py "Missing /var/task/source/company.csv")),
     sample_cache)
  ∧ ∃ msg, HTTPException 500 (py "Missing /var/task/source/company.csv")
           = HTTPException 500 msg.
Proof.
  split; [reflexivity|].
  destruct (wrapped_exceptions missing_world sample_cache sample_cache
              (HTTPException 500 (py "Missing /var/task/source/company.csv")))
    as [_ Hreload].
  destruct (Hreload eq_refl) as (msg & Hmsg & _).
  by exists msg.
Defined.

(** ** The version token *)

Lemma py_cons a s : py (String a s) = N_of_ascii a :: py s.
Proof. done. Qed.

Lemma py_inj s s' : py s = py s' → s = s'.
Proof.
  revert s'. induction s as [|a s IH]; intros [|a' s']; try done.
  rewrite !py_cons. intros [= Ha Hs]. f_equal; [|by apply IH].
  by rewrite <- (ascii_N_embedding a), Ha, ascii_N_embedding.
Qed.

Lemma to_uint_not_nil n : N.to_uint n ≠ Decimal.Nil.
Proof. destruct n as [|p]; [done|]. apply DecimalPos.Unsigned.to_uint_nonnil. Qed.

Lemma decimal_inj n m : decimal n = decimal m → n = m.
Proof.
  unfold decimal. intros Hs%py_inj.
  apply DecimalN.Unsigned.to_uint_inj.
  apply (f_equal NilZero.uint_of_string) in Hs.
  rewrite !NilZero.usu in Hs by apply to_uint_not_nil. by injection Hs.
Qed.

Lemma string_of_uint_digits d :
  Forall is_digit (py (NilEmpty.string_of_uint d)).
Proof.
  induction d; simpl; rewrite ?py_cons; [apply Forall_nil_2|..];
    (apply Forall_cons; split; [by vm_compute|done]).
Qed.

Lemma decimal_digits n : Forall is_digit (decimal n) ∧ decimal n ≠ [].
Proof.
  unfold decimal. pose proof (to_uint_not_nil n) as Hn.
  destruct (N.to_uint n) as [|d|d|d|d|d|d|d|d|d|d] eqn:Hd; [done|..];
    (split; [apply (string_of_uint_digits (_ d))|done]).
Qed.

Lemma digits_split d1 d2 b1 b2 :
  Forall is_digit d1 → Forall is_digit d2 →
  d1 ++ 45 :: b1 = d2 ++ 45 :: b2 → d1 = d2 ∧ b1 = b2.
Proof.
  intros H1. revert d2. induction H1 as [|c d1 Hc _ IH]; intros d2 H2.
  - destruct H2 as [|c d2 Hc _]; simpl; [by intros [= ->]|].
    intros [= <- _]. destruct Hc as [Hc _]. by vm_compute in Hc.
  - destruct H2 as [|c' d2 Hc' H2]; simpl.
    + intros [= -> _]. destruct Hc as [Hc _]. by vm_compute in Hc.
    + intros [= -> Heq]. destruct (IH d2 H2 Heq) as [-> ->]. done.
Qed.

Lemma formatted_split t t' b b' :
  formatted t → formatted t' →
  t ++ 45 :: b = t' ++ 45 :: b' → t = t' ∧ b = b'.
Proof.
  intros (d & Hd & Hne & Ht) (d' & Hd' & Hne' & Ht').
  destruct Ht as [-> | ->], Ht' as [-> | ->]; simpl.
  - by apply digits_split.
  - intros Heq. destruct d as [|c d]; [done|]. simpl in Heq.
    injection Heq as -> _. apply Forall_cons in Hd as [[Hc _] _].
    by vm_compute in Hc.
  - intros Heq. destruct d' as [|c d']; [done|]. simpl in Heq.
    injection Heq as <- _. apply Forall_cons in Hd' as [[Hc _] _].
    by vm_compute in Hc.
  - intros [= Heq]. destruct (digits_split d d' b b' Hd Hd' Heq) as [-> ->].
    done.
Qed.

Lemma format_0f_formatted x : formatted (format_0f x).
Proof.
  unfold format_0f. destruct (decimal_digits (Z.to_N (round_half_even (Qabs x))))
    as [Hd Hne].
  eexists. split; [exact Hd|]. split; [exact Hne|].
  destruct (x ?= 0)%Q; [by left|by right|by left].
Qed.

Lemma round_half_even_nonneg x : (0 <= x)%Q → (0 ≤ round_half_even x)%Z.
Proof.
  intros Hx. unfold round_half_even.
  assert (0 ≤ Qfloor x)%Z as Hf.
  { rewrite <- (Qfloor_Z 0). by apply Qfloor_resp_le. }
  destruct (_ ?= _)%Q; [destruct (Z.even _)|..]; lia.
Qed.

Lemma sign_digits_eq s s' d d' :
  s = [] ∨ s = [45] → s' = [] ∨ s' = [45] →
  Forall is_digit d → d ≠ [] → Forall is_digit d' → d' ≠ [] →
  s ++ d = s' ++ d' → s = s' ∧ d = d'.
Proof.
  intros [-> | ->] [-> | ->] Hd Hne Hd' Hne'; simpl.
  - done.
  - intros ->. apply Forall_cons in Hd as [[Hc _] _]. by vm_compute in Hc.
  - intros <-. apply Forall_cons in Hd' as [[Hc _] _]. by vm_compute in Hc.
  - by intros [= ->].
Qed.

Lemma sign_cases x :
  (sign x = [] ∨ sign x = [45]) ∧ (sign x = [45] ↔ (x < 0)%Q).
Proof.
  unfold sign. rewrite Qlt_alt.
  destruct (x ?= 0)%Q; (split; [|split; done]); by (left + right).
Qed.

Lemma format_0f_eq_iff x y : format_0f x = format_0f y ↔ same_seconds x y.
Proof.
  unfold same_seconds.
  change (format_0f x)
    with (sign x ++ decimal (Z.to_N (round_half_even (Qabs x)))).
  change (format_0f y)
    with (sign y ++ decimal (Z.to_N (round_half_even (Qabs y)))).
  pose proof (round_half_even_nonneg _ (Qabs_nonneg x)) as Hx.
  pose proof (round_half_even_nonneg _ (Qabs_nonneg y)) as Hy.
  destruct (decimal_digits (Z.to_N (round_half_even (Qabs x)))) as [Hdx Hnx].
  destruct (decimal_digits (Z.to_N (round_half_even (Qabs y)))) as [Hdy Hny].
  destruct (sign_cases x) as [Hsx Hx0], (sign_cases y) as [Hsy Hy0].
  split.
  - intros Heq.
    destruct (sign_digits_eq _ _ _ _ Hsx Hsy Hdx Hnx Hdy Hny Heq) as [Hs Hd].
    split.
    + split; intros H0.
      * apply (proj1 Hy0). rewrite <- Hs. by apply (proj2 Hx0).
      * apply (proj1 Hx0). rewrite Hs. by apply (proj2 Hy0).
    + apply decimal_inj in Hd. lia.
  - intros [Hs ->]. f_equal.
    destruct Hsx as [Hsx|Hsx], Hsy as [Hsy|Hsy]; rewrite Hsx, Hsy; try done.
    + apply (proj1 Hy0), (proj2 Hs), (proj2 Hx0) in Hsy. congruence.
    + apply (proj1 Hx0), (proj1 Hs), (proj2 Hy0) in Hsx. congruence.
Qed.

Lemma file_version_token_eq w w' :
  _file_version w' = _file_version w
  ↔ same_seconds (mtime_or_0 w COMPANY_CSV) (mtime_or_0 w' COMPANY_CSV)
    ∧ same_seconds (mtime_or_0 w RECRUIT_CSV) (mtime_or_0 w' RECRUIT_CSV).
Proof.
  rewrite <- !format_0f_eq_iff. unfold _file_version. simpl.
  change (py "-") with [45]. split.
  - intros Heq.
    apply formatted_split in Heq as [-> ->];
      [done|apply format_0f_formatted..].
  - by intros [-> ->].
Qed.

(** X14. Two environments get the same version token exactly when the
    modification times of the company files have the same sign and round
    (ties to even) to the same whole seconds, and so do those of the
    recruit files, a missing file counting as time 0: the token tells
    apart any two different pairs of rounded times, and nothing finer. *)
Theorem file_version_eq_iff (w w' : world) :
  _file_version w = _file_version w'
  ↔ same_seconds (mtime_or_0 w COMPANY_CSV) (mtime_or_0 w' COMPANY_CSV)
    ∧ same_seconds (mtime_or_0 w RECRUIT_CSV) (mtime_or_0 w' RECRUIT_CSV).
Proof.
  rewrite <- !format_0f_eq_iff. unfold _file_version. simpl.
  change (py "-") with [45]. split.
  - intros Heq. apply formatted_split in Heq; [done|apply format_0f_formatted..].
  - by intros [-> ->].
Qed.

(** X15. On a snapshot published from an environment [w], a load with
    [force = false] in an environment [w'] whose files exist and read
    without error keeps the snapshot, whatever the files now hold, when
    their modification times fall in the same rounded seconds as those
    of [w], and publishes the snapshot of [w'] when they do not. *)
Theorem non_forced_load_rebuilds_iff_seconds_differ
    (w w' : world) (cf rf cf' rf' : csv_file) :
  company_csv w' = Some cf' → recruit_csv w' = Some rf' →
  fault cf' = None → fault rf' = None →
  let same :=
    same_seconds (mtime_or_0 w COMPANY_CSV) (mtime_or_0 w' COMPANY_CSV)
    ∧ same_seconds (mtime_or_0 w RECRUIT_CSV) (mtime_or_0 w' RECRUIT_CSV) in
  (same →
   load_cache_from_csv false w' (published w cf rf)
   = (Return (), published w cf rf))
  ∧ (¬ same →
     load_cache_from_csv false w' (published w cf rf)
     = (Return (), published w' cf' rf')).
Proof.
  intros Hc Hr Hcf Hrf. simpl.
  rewrite <- file_version_token_eq.
  rewrite load_outcome, Hc, Hr, Hcf, Hrf. unfold rebuilds. simpl.
  split; intros Hv.
  - by rewrite bool_decide_eq_true_2.
  - by rewrite bool_decide_eq_false_2 by (intros Heq; by apply Hv).
Qed.

Lemma non_forced_load_rebuilds_iff_seconds_differ_witness :
  load_cache_from_csv false same_second_world sample_cache
  = (Return (), sample_cache)
  ∧ rows sample_companies ≠ [acme_row_renamed].
Proof.
  split; [|by vm_compute].
  apply (non_forced_load_rebuilds_iff_seconds_differ sample_world
           same_second_world sample_companies sample_recruits
           {| st_mtime := 1002 # 10; rows := [acme_row_renamed];
              fault := None |} sample_recruits
           eq_refl eq_refl eq_refl eq_refl).
  split; (split; [split; intros H0; by vm_compute in H0|reflexivity]).
Defined.

(** ** Answers and the state they leave *)

(** X16. Whenever a query handler returns, the cache it leaves is loaded
    and the answer is read from that very cache: the record under the
    key, the whole list, or the statistics, whose [cache_loaded] field is
    therefore always true. *)
Theorem answers_read_final_state
    (k : pystr) (w : world) (st st' : cache) :
  (∀ d, get_company k w st = (Return d, st') →
        _cache_loaded st' = true ∧ company_cache st' !! k = Some d)
  ∧ (∀ resp, get_recruitment k w st = (Return resp, st') →
             _cache_loaded st' = true
             ∧ recruit_cache st' !! k = Some (recruitment resp))
  ∧ (∀ ds, get_all_recruitments w st = (Return ds, st') →
           _cache_loaded st' = true ∧ ds = all_recruits st')
  ∧ (∀ ds, root w st = (Return ds, st') →
           _cache_loaded st' = true ∧ ds = all_companies st')
  ∧ (∀ resp, check_data w st = (Return resp, st') →
             resp = stats st' ∧ cache_loaded resp = true).
Proof.
  split; [|split; [|split; [|split]]].
  - intros d. rewrite get_company_outcome.
    intros [Hens Hf]%answer_return_inv.
    split; [by apply (ensure_return_loaded w st)|].
    unfold found_company in Hf.
    destruct (company_cache st' !! k); [by injection Hf as ->|done].
  - intros resp. rewrite get_recruitment_outcome.
    intros [Hens Hf]%answer_return_inv.
    split; [by apply (ensure_return_loaded w st)|].
    unfold found_recruitment in Hf.
    destruct (recruit_cache st' !! k); [by injection Hf as <-|done].
  - intros ds. rewrite get_all_recruitments_outcome.
    intros [Hens [= <-]]%answer_return_inv.
    split; [by apply (ensure_return_loaded w st)|done].
  - intros ds. rewrite root_outcome.
    intros [Hens [= <-]]%answer_return_inv.
    split; [by apply (ensure_return_loaded w st)|done].
  - intros resp. rewrite check_data_outcome.
    intros [Hens [= <-]]%answer_return_inv.
    split; [done|]. simpl. by apply (ensure_return_loaded w st).
Qed.

Lemma answers_read_final_state_witness :
  _cache_loaded sample_cache = true
  ∧ company_cache sample_cache !! acme_number
    = Some (company_record acme_row_again).
Proof.
  destruct (answers_read_final_state acme_number sample_world initial_cache
              sample_cache) as (Hcompany & _).
  apply (Hcompany (company_record acme_row_again)). reflexivity.
Defined.

(** X17. In every loaded state a process can be in, the listings cover
    the lookups: a record [get_company] returns, and the company
    [get_recruitment] puts beside a recruitment, are in the list [root]
    serves; a recruitment [get_recruitment] returns is in the list
    [get_all_recruitments] serves; and every listed recruitment has an
    identifier for which [get_recruitment] answers with a record of that
    identifier. *)
Theorem listings_cover_lookups (st : cache) (w : world) (k : pystr) :
  reachable st → _cache_loaded st = true →
  root w st = (Return (all_companies st), st)
  ∧ get_all_recruitments w st = (Return (all_recruits st), st)
  ∧ (∀ d, get_company k w st = (Return d, st) → d ∈ all_companies st)
  ∧ (∀ resp, get_recruitment k w st = (Return resp, st) →
             recruitment resp ∈ all_recruits st
             ∧ ∀ c, company resp = Some c → c ∈ all_companies st)
  ∧ (∀ d, d ∈ all_recruits st →
          ∃ id resp,
            get (py "media_internal_id") d = Some id
            ∧ get_recruitment id w st = (Return resp, st)
            ∧ get (py "media_internal_id") (recruitment resp) = Some id).
Proof.
  intros Hinv%reachable_inv Hl.
  assert (∀ id, get_recruitment id w st = (found_recruitment id st, st))
    as Hrec.
  { intros id. by rewrite get_recruitment_outcome, ensure_loaded. }
  split; [by rewrite root_outcome, ensure_loaded|].
  split; [by rewrite get_all_recruitments_outcome, ensure_loaded|].
  split; [|split].
  - intros d. rewrite get_company_outcome, ensure_loaded by done.
    rewrite answer_return. unfold found_company.
    destruct (company_cache st !! k) as [d'|] eqn:Hd; [|done].
    intros [= <-]. by destruct (inv_company_key st Hinv k d' Hd).
  - intros resp. rewrite Hrec. unfold found_recruitment.
    destruct (recruit_cache st !! k) as [r|] eqn:Hr; [|done].
    intros [= <-]. simpl. split.
    + by destruct (inv_recruit_key st Hinv k r Hr).
    + intros c Hc. destruct (key_of _ r) as [corp|]; [|done].
      by destruct (inv_company_key st Hinv corp c Hc).
  - intros d Hd.
    destruct (inv_recruit_list st Hinv d Hd) as (id & Hid & [r Hr]).
    destruct (inv_recruit_key st Hinv id r Hr) as [Hrid _].
    exists id. eexists. split; [by apply key_of_nonempty in Hid as [_ ?]|].
    rewrite Hrec. unfold found_recruitment. rewrite Hr.
    split; [done|]. simpl. by apply key_of_nonempty in Hrid as [_ ?].
Qed.

Lemma listings_cover_lookups_witness :
  reachable sample_cache
  ∧ company_record acme_row_again ∈ all_companies sample_cache.
Proof.
  split; [apply sample_cache_reachable|].
  destruct (listings_cover_lookups sample_cache later_world acme_number
              sample_cache_reachable eq_refl) as (_ & _ & Hcompany & _).
  apply Hcompany. reflexivity.
Defined.
